(** * ParcelService: the tour optimisation core of [tsp_solver.py]

    A shallow embedding of the greedy nearest-neighbour construction
    ([greedy_tsp]), the path length ([calculate_path_distance]), the segment
    reversal ([two_opt_swap]) and the first-improvement local search
    ([two_opt_improvement]) of [src/tsp_solver.py] (the same functions are
    repeated verbatim in [src/tsp.py]).

    Distances are IEEE 754 binary64 numbers, as Python's [float]: they are
    modelled by Rocq's primitive floats, so that [+] rounds and [<] treats
    NaN and the infinities as the interpreter does.  The integer [0] that the
    code writes on the diagonal and uses to start a sum is the float zero
    (Python converts it in mixed arithmetic).  Indices are Python integers
    ([Z]); list subscripts and slices follow Python's rules, negative
    positions included.  An exception raised by the interpreter is a value
    [Raise e] of the result type.

    The great-circle distance [haversine] calls the C library's [sin],
    [cos], [asin] and [pow], whose rounding is the platform's: they are
    parameters of its model, which keeps the arithmetic around them and the
    exceptions of the [math] module.  The matrix construction takes the
    distance function as a parameter in turn, and the entries of a distance
    matrix are arbitrary floats, constrained where a statement needs it by
    the predicates of the section on well-formed inputs. *)

From Stdlib Require Import ZArith Lia Floats Factorial.
From stdpp Require Import base option list strings.

Local Open Scope Z_scope.

(** ** Exceptions and results *)

Inductive exn : Type :=
  | IndexError
  | TypeError
  | ValueError
  | OverflowError
  | OSError.

Inductive result (A : Type) : Type :=
  | Ok (a : A)
  | Raise (e : exn).

Arguments Ok {A} a.
Arguments Raise {A} e.

#[global] Instance result_bind : MBind result :=
  fun A B (k : A -> result B) (r : result A) =>
    match r with
    | Ok a => k a
    | Raise e => Raise e
    end.

(** A [for] loop whose body may raise: the state is threaded through the
    elements in order and the first exception ends the loop. *)
Fixpoint for_each {St X : Type} (body : St -> X -> result St) (xs : list X) (s : St)
  : result St :=
  match xs with
  | [] => Ok s
  | x :: xs' => s' ← body s x; for_each body xs' s'
  end.

(** ** Python lists *)

Module Py.

Definition len {A : Type} (l : list A) : Z := Z.of_nat (length l).

(** A negative subscript counts from the end of a list of [n] elements. *)
Definition wrap (n i : Z) : Z := if i <? 0 then n + i else i.

(** The position a subscript [i] denotes in a list of [n] elements, if it
    is one. *)
Definition position (n i : Z) : option nat :=
  let k := wrap n i in
  if (0 <=? k) && (k <? n) then Some (Z.to_nat k) else None.

(** [l[i]] *)
Definition getitem {A : Type} (l : list A) (i : Z) : result A :=
  match position (len l) i with
  | Some k => match l !! k with Some x => Ok x | None => Raise IndexError end
  | None => Raise IndexError
  end.

(** [l[i] = v] *)
Definition setitem {A : Type} (l : list A) (i : Z) (v : A) : result (list A) :=
  match position (len l) i with
  | Some k => Ok (<[k := v]> l)
  | None => Raise IndexError
  end.

(** [range(lo, hi)] *)
Definition range (lo hi : Z) : list Z := seqZ lo (hi - lo).

(** A slice bound is clamped into [0, n] after a negative one was counted
    from the end. *)
Definition bound (n i : Z) : Z :=
  if i <? 0 then Z.max 0 (n + i) else Z.min i n.

(** [l[lo:hi]], either bound possibly left out. *)
Definition slice {A : Type} (l : list A) (lo hi : option Z) : list A :=
  let n := len l in
  let a := match lo with Some i => bound n i | None => 0 end in
  let b := match hi with Some i => bound n i | None => n end in
  take (Z.to_nat (b - a)) (drop (Z.to_nat a) l).

End Py.

(** ** Comparisons of distances

    [<] and [<=] on Python floats, as propositions. *)

Definition float_lt (x y : float) : Prop := PrimFloat.ltb x y = true.
Definition float_le (x y : float) : Prop := PrimFloat.leb x y = true.
Definition nonneg (x : float) : Prop := float_le PrimFloat.zero x.

(** Non-negative numbers of the IEEE specification: the zeros, the positive
    finite numbers and the positive infinity. *)
Definition SFnonneg (x : spec_float) : bool :=
  match x with
  | S754_zero _ | S754_infinity false | S754_finite false _ _ => true
  | _ => false
  end.

(** ** The solver *)

Definition matrix : Type := list (list float).

(** [distance_matrix[a][b]] *)
Definition entry (distance_matrix : matrix) (a b : Z) : result float :=
  row ← Py.getitem distance_matrix a;
  Py.getitem row b.

(** The state of the candidate scan: [next_place] ([None] until a candidate
    was taken) and [min_distance]. *)
Definition choice : Type := option Z * float.

(** Body of [for candidate in range(n)] (lines 58 to 61): [and] evaluates the
    matrix entry only for a candidate that is not visited. *)
Definition consider (distance_matrix : matrix) (visited : list bool) (current : Z)
    (c : choice) (candidate : Z) : result choice :=
  seen ← Py.getitem visited candidate;
  if (seen : bool) then Ok c
  else
    d ← entry distance_matrix current candidate;
    if PrimFloat.ltb d (snd c) then Ok (Some candidate, d) else Ok c.

(** Body of [for _ in range(n - 1)] (lines 54 to 64).  When no candidate was
    taken [next_place] is still [None] and [visited[None] = True] raises
    [TypeError]. *)
Definition visit_next (distance_matrix : matrix) (n : Z)
    (st : list Z * list bool) (_ : Z) : result (list Z * list bool) :=
  let '(path, visited) := st in
  current ← Py.getitem path (-1);
  c ← for_each (consider distance_matrix visited current) (Py.range 0 n)
         (None, PrimFloat.infinity);
  match fst c with
  | None => Raise TypeError
  | Some next_place =>
      visited' ← Py.setitem visited next_place true;
      Ok (path ++ [next_place], visited')
  end.

Definition greedy_tsp (distance_matrix : matrix) (start_index : Z) : result (list Z) :=
  let n := Py.len distance_matrix in
  let visited := replicate (Z.to_nat n) false in
  let path := [start_index] in
  visited ← Py.setitem visited start_index true;
  st ← for_each (visit_next distance_matrix n) (Py.range 0 (n - 1)) (path, visited);
  Ok (fst st).

(** Body of the loop of [calculate_path_distance] (line 72). *)
Definition add_edge (path : list Z) (distance_matrix : matrix)
    (total : float) (i : Z) : result float :=
  a ← Py.getitem path i;
  row ← Py.getitem distance_matrix a;
  b ← Py.getitem path (i + 1);
  d ← Py.getitem row b;
  Ok (PrimFloat.add total d).

Definition calculate_path_distance (path : list Z) (distance_matrix : matrix)
  : result float :=
  for_each (add_edge path distance_matrix) (Py.range 0 (Py.len path - 1)) PrimFloat.zero.

Definition two_opt_swap (path : list Z) (i j : Z) : list Z :=
  Py.slice path None (Some i)
    ++ reverse (Py.slice path (Some i) (Some (j + 1)))
    ++ Py.slice path (Some (j + 1)) None.

(** The inner [for j] loop of one pass (lines 94 to 102): the first improving
    swap, if any, with its length. *)
Fixpoint scan_j (best_path : list Z) (best_distance : float) (distance_matrix : matrix)
    (i : Z) (jvals : list Z) : result (option (list Z * float)) :=
  match jvals with
  | [] => Ok None
  | j :: jvals' =>
      let new_path := two_opt_swap best_path i j in
      new_distance ← calculate_path_distance new_path distance_matrix;
      if PrimFloat.ltb new_distance best_distance
      then Ok (Some (new_path, new_distance))
      else scan_j best_path best_distance distance_matrix i jvals'
  end.

(** The outer [for i] loop of one pass (lines 93 to 104); [break] on
    [improved] leaves it as soon as the inner loop accepted a swap. *)
Fixpoint scan_i (best_path : list Z) (best_distance : float) (distance_matrix : matrix)
    (ivals : list Z) : result (option (list Z * float)) :=
  match ivals with
  | [] => Ok None
  | i :: ivals' =>
      found ← scan_j best_path best_distance distance_matrix i
                 (Py.range (i + 1) (Py.len best_path - 1));
      match found with
      | Some move => Ok (Some move)
      | None => scan_i best_path best_distance distance_matrix ivals'
      end
  end.

(** One pass of the [while] body. *)
Definition scan (best_path : list Z) (best_distance : float) (distance_matrix : matrix)
  : result (option (list Z * float)) :=
  scan_i best_path best_distance distance_matrix (Py.range 1 (Py.len best_path - 2)).

(** The [while improved] loop (lines 91 to 104), one pass per unit of fuel;
    [None] when the fuel ran out before a pass without improvement. *)
Fixpoint improve (fuel : nat) (best_path : list Z) (best_distance : float)
    (distance_matrix : matrix) : option (result (list Z)) :=
  match fuel with
  | O => None
  | S fuel' =>
      match scan best_path best_distance distance_matrix with
      | Raise e => Some (Raise e)
      | Ok None => Some (Ok best_path)
      | Ok (Some (new_path, new_distance)) =>
          improve fuel' new_path new_distance distance_matrix
      end
  end.

Definition two_opt_improvement (fuel : nat) (path : list Z) (distance_matrix : matrix)
  : option (result (list Z)) :=
  match calculate_path_distance path distance_matrix with
  | Raise e => Some (Raise e)
  | Ok best_distance => improve fuel path best_distance distance_matrix
  end.

(** ** The rest of [tsp_solver.py] *)

(** [solve_tsp] (lines 108 to 122): the greedy tour, improved, with the
    start index appended when the tour is to return to its start. *)
Definition solve_tsp (fuel : nat) (distance_matrix : matrix) (start_index : Z)
    (return_to_start : bool) : option (result (list Z)) :=
  match greedy_tsp distance_matrix start_index with
  | Raise e => Some (Raise e)
  | Ok path =>
      match two_opt_improvement fuel path distance_matrix with
      | None => None
      | Some (Raise e) => Some (Raise e)
      | Some (Ok path) =>
          Some (Ok (if return_to_start then path ++ [start_index] else path))
      end
  end.

(** [Place = namedtuple('Place', ['name', 'lat', 'lon'])] *)
Record Place : Type := { name : string; lat : float; lon : float }.

(** The search of [main] for the start place (lines 190 to 193): the index
    of the first place with the name, [None] when the loop ends without
    [break]. *)
Fixpoint find_place (places : list Place) (start : string) (i : Z) : option Z :=
  match places with
  | [] => None
  | place :: rest =>
      if String.eqb (name place) start then Some i
      else find_place rest start (i + 1)
  end.

(** The start index of [main] (lines 188 to 195) with whether the warning of
    the [else] branch is printed.  [if args.start:] skips the search for
    [None] and for the empty string. *)
Definition find_start_index (places : list Place) (start : option string) : Z * bool :=
  match start with
  | None => (0, false)
  | Some s =>
      if String.eqb s EmptyString then (0, false)
      else match find_place places s 0 with
           | Some i => (i, false)
           | None => (0, true)
           end
  end.

(** The comprehension of [create_geojson] (line 129):
    [[places[i].lon, places[i].lat] for i in path]. *)
Fixpoint coordinates (places : list Place) (path : list Z) : result (list (list float)) :=
  match path with
  | [] => Ok []
  | i :: rest =>
      p ← Py.getitem places i;
      q ← Py.getitem places i;
      cs ← coordinates places rest;
      Ok ([lon p; lat q] :: cs)
  end.

(** The values that [json.dump] receives. *)
#[warnings="-register-all"]
Inductive json : Type :=
  | JString (s : string)
  | JNumber (x : float)
  | JArray (items : list json)
  | JObject (members : list (string * json)).

(** The document a route is exported as: a FeatureCollection of one Feature
    with no properties, whose geometry is the LineString of the positions. *)
Definition line_string_document (positions : list (list float)) : json :=
  JObject
    [ ("type", JString "FeatureCollection");
      ("features",
        JArray
          [ JObject
              [ ("type", JString "Feature");
                ("properties", JObject []);
                ("geometry",
                  JObject
                    [ ("type", JString "LineString");
                      ("coordinates",
                        JArray ((fun c => JArray (JNumber <$> c)) <$> positions)) ]) ] ])
    ]%string.

Section GeoJSON.

(** [with open(output_file, 'w') as f: json.dump(geojson, f, indent=2)]
    (lines 147 and 148).  What the operating system does with the file name
    is outside the program: the statement returns, or raises (an [OSError]
    such as [FileNotFoundError] for a name that cannot be opened). *)
Variable dump_to_file : string -> json -> result unit.

(** [create_geojson] (lines 124 to 150; the same in [geojson_exporter.py]):
    the coordinates are collected, the structure is built and written, and
    the file name is returned. *)
Definition create_geojson (places : list Place) (path : list Z) (output_file : string)
  : result string :=
  cs ← coordinates places path;
  let geojson :=
    JObject
      [ ("type", JString "FeatureCollection");
        ("features",
          JArray
            [ JObject
                [ ("type", JString "Feature");
                  ("properties", JObject []);
                  ("geometry",
                    JObject
                      [ ("type", JString "LineString");
                        ("coordinates",
                          JArray ((fun c => JArray (JNumber <$> c)) <$> cs)) ]) ] ]) ]%string
  in
  _ ← dump_to_file output_file geojson;
  Ok output_file.

End GeoJSON.

(** ** [haversine] *)

Section Haversine.

(** The functions of the C library behind [math.sin], [math.cos],
    [math.asin] and the float power [**]. *)
Variables (sin cos asin : float -> float) (pow : float -> float -> float).

(** [math.radians(x)] is [x * (pi / 180)]. *)
Definition deg_to_rad : float := (0x1.921fb54442d18p+1 / 180)%float.

Definition math_radians (x : float) : float := (x * deg_to_rad)%float.

(** [math.sin(x)] and [math.cos(x)]: an infinite argument is a
    [ValueError] (math domain error), NaN gives NaN. *)
Definition math_sin (x : float) : result float :=
  if PrimFloat.is_infinity x then Raise ValueError else Ok (sin x).

Definition math_cos (x : float) : result float :=
  if PrimFloat.is_infinity x then Raise ValueError else Ok (cos x).

(** [math.sqrt(x)]: a negative argument is a [ValueError]; the square root
    itself is correctly rounded. *)
Definition math_sqrt (x : float) : result float :=
  if (x <? 0)%float then Raise ValueError else Ok (PrimFloat.sqrt x).

(** [math.asin(x)]: an argument outside [[-1, 1]] is a [ValueError]. *)
Definition math_asin (x : float) : result float :=
  if ((x <? -1) || (1 <? x))%float then Raise ValueError else Ok (asin x).

(** [x ** 2] on a float: NaN gives NaN, an infinity gives the positive
    infinity, a zero gives zero and [1] or [-1] gives [1] without a call;
    otherwise the C library's [pow] is called on the absolute value, and a
    result that overflows is an [OverflowError]. *)
Definition pow_2 (x : float) : result float :=
  if PrimFloat.is_nan x then Ok x
  else if PrimFloat.is_infinity x then Ok PrimFloat.infinity
  else if (x =? 0)%float then Ok PrimFloat.zero
  else if (PrimFloat.abs x =? 1)%float then Ok PrimFloat.one
  else
    let r := pow (PrimFloat.abs x) 2%float in
    if PrimFloat.is_infinity r then Raise OverflowError else Ok r.

(** [haversine] (lines 10 to 24; the same in [distance.py] and [tsp.py]).
    The value passed to [math.asin] is used as computed: nothing brings it
    back into [[-1, 1]]. *)
Definition haversine (lat1 lon1 lat2 lon2 : float) : result float :=
  let lat1 := math_radians lat1 in
  let lon1 := math_radians lon1 in
  let lat2 := math_radians lat2 in
  let lon2 := math_radians lon2 in
  let dlon := (lon2 - lon1)%float in
  let dlat := (lat2 - lat1)%float in
  s1 ← math_sin (dlat / 2)%float;
  p1 ← pow_2 s1;
  c1 ← math_cos lat1;
  c2 ← math_cos lat2;
  s2 ← math_sin (dlon / 2)%float;
  p2 ← pow_2 s2;
  let a := (p1 + c1 * c2 * p2)%float in
  q ← math_sqrt a;
  h ← math_asin q;
  let c := (2 * h)%float in
  let r := 6371%float in
  Ok (c * r)%float.

End Haversine.

Section DistanceMatrix.

(** [haversine] itself is float trigonometry of the C library; the matrix
    construction is stated for whatever it returns or raises. *)
Variable haversine : float -> float -> float -> float -> result float.

(** [matrix[i][j] = v] on the matrix [mat]: its rows are separate lists, so
    the update of row [i] is the only change. *)
Definition set_entry (mat : matrix) (i j : Z) (v : float) : result matrix :=
  row ← Py.getitem mat i;
  row' ← Py.setitem row j v;
  Py.setitem mat i row'.

(** Body of [for j in range(n)] (lines 33 to 37). *)
Definition fill_entry (places : list Place) (i : Z) (mat : matrix) (j : Z)
  : result matrix :=
  if bool_decide (i <> j) then
    p1 ← Py.getitem places i;
    p2 ← Py.getitem places i;
    p3 ← Py.getitem places j;
    p4 ← Py.getitem places j;
    v ← haversine (lat p1) (lon p2) (lat p3) (lon p4);
    set_entry mat i j v
  else Ok mat.

(** Body of [for i in range(n)] (lines 31 to 37). *)
Definition fill_row (places : list Place) (n : Z) (mat : matrix) (i : Z)
  : result matrix :=
  for_each (fill_entry places i) (Py.range 0 n) mat.

Definition create_distance_matrix (places : list Place) : result matrix :=
  let n := Py.len places in
  let mat := replicate (Z.to_nat n) (replicate (Z.to_nat n) PrimFloat.zero) in
  for_each (fill_row places n) (Py.range 0 n) mat.

End DistanceMatrix.

(** ** Well-formed inputs *)

(** An [n] by [n] matrix. *)
Definition square (n : nat) (m : matrix) : Prop :=
  length m = n /\ Forall (fun row => length row = n) m.

(** Every entry is a number below the infinity that starts the search for a
    minimum. *)
Definition finite_entries (m : matrix) : Prop :=
  Forall (Forall (fun d => float_lt d PrimFloat.infinity)) m.

(** Every entry is a non-negative number (so none is NaN). *)
Definition nonneg_entries (m : matrix) : Prop :=
  Forall (Forall nonneg) m.

(** Every element of the path is an index of one of [n] points. *)
Definition indices (n : nat) (path : list Z) : Prop :=
  Forall (fun a => 0 <= a < Z.of_nat n) path.

(** The invariant of the loop of [greedy_tsp] over [k] points after [j]
    iterations: the path starts at [start_index] and has [j + 1] elements,
    which denote distinct positions, exactly those marked in [visited]. *)
Definition visiting (k : nat) (start_index : Z) (j : nat) (st : list Z * list bool)
  : Prop :=
  let n := Z.of_nat k in
  length st.2 = k
  /\ length st.1 = S j
  /\ head st.1 = Some start_index
  /\ Forall (fun a => 0 <= a < n) (tail st.1)
  /\ NoDup (Py.wrap n <$> st.1)
  /\ (forall u, (u < k)%nat ->
        st.2 !! u = Some true <-> Z.of_nat u ∈ Py.wrap n <$> st.1).

(** ** The measure of the local search

    [better m d p]: the length of [p] is defined and below [d]. *)
Definition better (distance_matrix : matrix) (d : float) (p : list Z) : bool :=
  match calculate_path_distance p distance_matrix with
  | Ok d' => PrimFloat.ltb d' d
  | Raise _ => false
  end.

(** The number of arrangements of [path] that are better than [d]. *)
Definition rank (distance_matrix : matrix) (path : list Z) (d : float) : nat :=
  length (filter (fun p => better distance_matrix d p = true) (permutations path)).

(** What holds of the best path and best distance throughout a run started
    from [path] of length [d0]. *)
Definition reached (m : matrix) (path : list Z) (d0 : float) (p : list Z) (d : float)
  : Prop :=
  calculate_path_distance p m = Ok d
  /\ (d = d0 \/ float_lt d d0)
  /\ p ≡ₚ path
  /\ Py.len p = Py.len path
  /\ Py.getitem p 0 = Py.getitem path 0
  /\ Py.getitem p (Py.len path - 1) = Py.getitem path (Py.len path - 1).

(** The invariant of the two loops of [create_distance_matrix]: the matrix
    is square, the entries of the rows before [i] and of row [i] before
    column [j] are as [haversine] returned them off the diagonal, and every
    other entry is still zero. *)
Definition filled (haversine : float -> float -> float -> float -> result float)
    (places : list Place) (i j : nat) (mat : matrix) : Prop :=
  square (length places) mat
  /\ forall a b p q,
       places !! a = Some p -> places !! b = Some q ->
       exists row v,
         mat !! a = Some row /\ row !! b = Some v
         /\ (((a < i)%nat \/ a = i /\ (b < j)%nat) /\ a <> b ->
             haversine (lat p) (lon p) (lat q) (lon q) = Ok v)
         /\ (~ (((a < i)%nat \/ a = i /\ (b < j)%nat) /\ a <> b) -> v = PrimFloat.zero).

(** A path built by nearest neighbour over [k] points: each element after
    the first is, among the places not yet on the path, one whose distance
    from the previous element is not above any other, and the smallest index
    among those at that distance. *)
Definition nearest_neighbour (m : matrix) (k : nat) (path : list Z) : Prop :=
  forall t prev next,
    path !! t = Some prev -> path !! S t = Some next ->
    exists dn, entry m prev next = Ok dn
               /\ forall c, 0 <= c < Z.of_nat k -> c ∉ take (S t) path ->
                    exists dc, entry m prev c = Ok dc
                               /\ ~ float_lt dc dn
                               /\ (c < next -> float_lt dn dc).

(** ** Examples *)

Definition square4 : matrix :=
  [ [0; 1; 2; 1]; [1; 0; 1; 2]; [2; 1; 0; 1]; [1; 2; 1; 0] ]%float.

Definition two_points : matrix := [ [0; 5]; [5; 0] ]%float.

Definition three_places : list Place :=
  [ {| name := "depot"; lat := 0; lon := 0 |};
    {| name := "north"; lat := 1; lon := 0 |};
    {| name := "north"; lat := 2; lon := 0 |} ].

Example greedy_square4 : greedy_tsp square4 0 = Ok [0; 1; 2; 3].
Proof. vm_compute. reflexivity. Qed.

Example improve_crossing :
  two_opt_improvement 5 [0; 2; 1; 3] square4 = Some (Ok [0; 1; 2; 3]).
Proof. vm_compute. reflexivity. Qed.

(** * Facts about float comparison and addition *)

Section FloatFacts.

Lemma SFcompare_refl_not_Lt x : SFcompare x x <> Some Lt.
Proof.
  destruct x as [s|s| |s m e]; simpl; try destruct s; try discriminate;
    rewrite Z.compare_refl, Pos.compare_cont_refl; discriminate.
Qed.

Lemma SFcompare_Lt_trans x y z :
  SFcompare x y = Some Lt -> SFcompare y z = Some Lt -> SFcompare x z = Some Lt.
Proof.
  destruct x as [sx|sx| |sx mx ex], y as [sy|sy| |sy my ey], z as [sz|sz| |sz mz ez];
    simpl; try discriminate; try (destruct sx); try (destruct sy); try (destruct sz);
    try discriminate; try reflexivity; intros Hxy Hyz.
  all: destruct (Z.compare_spec ex ey), (Z.compare_spec ey ez), (Z.compare_spec ex ez);
    try discriminate; try reflexivity; try lia; subst.
  all: change (Pos.compare_cont Eq ?a ?b) with (Pos.compare a b) in *.
  all: destruct (Pos.compare_spec mx my), (Pos.compare_spec my mz), (Pos.compare_spec mx mz);
    simpl in *; try discriminate; try reflexivity; try lia.
Qed.

Lemma float_lt_irrefl x : ~ float_lt x x.
Proof.
  unfold float_lt. rewrite ltb_spec. unfold SFltb.
  pose proof (SFcompare_refl_not_Lt (Prim2SF x)) as H.
  destruct (SFcompare (Prim2SF x) (Prim2SF x)) as [[]|]; congruence.
Qed.

Lemma ltb_Lt x y : PrimFloat.ltb x y = true <-> SFcompare (Prim2SF x) (Prim2SF y) = Some Lt.
Proof.
  rewrite ltb_spec. unfold SFltb.
  destruct (SFcompare (Prim2SF x) (Prim2SF y)) as [[]|]; split; congruence.
Qed.

Lemma float_lt_trans x y z : float_lt x y -> float_lt y z -> float_lt x z.
Proof. unfold float_lt. rewrite !ltb_Lt. apply SFcompare_Lt_trans. Qed.

Lemma float_lt_le x y : float_lt x y -> float_le x y.
Proof.
  unfold float_lt, float_le. rewrite ltb_Lt, leb_spec. unfold SFleb. intros ->. reflexivity.
Qed.

Lemma nonneg_spec x : nonneg x <-> SFnonneg (Prim2SF x) = true.
Proof.
  unfold nonneg, float_le. rewrite leb_spec.
  change (Prim2SF PrimFloat.zero) with (S754_zero false).
  unfold SFleb.
  destruct (Prim2SF x) as [s|s| |s m e]; simpl; try destruct s; simpl; split; congruence.
Qed.

Lemma SFnonneg_le_refl x : SFnonneg x = true -> SFleb x x = true.
Proof.
  destruct x as [s|s| |s m e]; simpl; try destruct s; try discriminate; try reflexivity.
  intros _. unfold SFleb. simpl. rewrite Z.compare_refl, Pos.compare_cont_refl. reflexivity.
Qed.

Lemma nonneg_le_refl x : nonneg x -> float_le x x.
Proof. rewrite nonneg_spec. unfold float_le. rewrite leb_spec. apply SFnonneg_le_refl. Qed.

Section Rounding.
Variables prec emax : Z.

Lemma shr_1_nonneg mrs : 0 <= shr_m mrs -> 0 <= shr_m (shr_1 mrs).
Proof. destruct mrs as [[|[p|p|]|p] r s]; simpl; lia. Qed.

Lemma shr_nonneg mrs e n : 0 <= shr_m mrs -> 0 <= shr_m (fst (shr mrs e n)).
Proof.
  intros H. destruct n as [|p|p]; simpl; try assumption.
  revert mrs H. induction p as [p IH|p IH|]; intros mrs H; simpl;
    auto using shr_1_nonneg.
Qed.

Lemma shr_fexp_nonneg m e l : 0 <= m -> 0 <= shr_m (fst (shr_fexp prec emax m e l)).
Proof.
  intros H. unfold shr_fexp. apply shr_nonneg.
  destruct l as [|[]]; simpl; assumption.
Qed.

Lemma round_nearest_even_nonneg m l : 0 <= m -> 0 <= round_nearest_even m l.
Proof. destruct l as [|[]]; simpl; try destruct (Z.even m); lia. Qed.

Lemma binary_round_aux_nonneg m e l :
  0 <= m -> SFnonneg (binary_round_aux prec emax false m e l) = true.
Proof.
  intros H. unfold binary_round_aux.
  pose proof (shr_fexp_nonneg m e l H) as H1.
  destruct (shr_fexp prec emax m e l) as [mrs' e'] eqn:E1. simpl in H1.
  pose proof (shr_fexp_nonneg _ e' loc_Exact
                (round_nearest_even_nonneg _ (loc_of_shr_record mrs') H1)) as H2.
  destruct (shr_fexp prec emax _ e' loc_Exact) as [mrs'' e''] eqn:E2. simpl in H2.
  destruct (shr_m mrs'') as [|p|p]; try reflexivity; try lia.
  destruct (e'' <=? emax - prec); reflexivity.
Qed.

Lemma SFadd_nonneg x y :
  SFnonneg x = true -> SFnonneg y = true -> SFnonneg (SFadd prec emax x y) = true.
Proof.
  destruct x as [sx|sx| |sx mx ex], y as [sy|sy| |sy my ey]; simpl;
    try destruct sx; try destruct sy; try discriminate; try reflexivity; intros _ _.
  unfold cond_Zopp, binary_normalize.
  destruct (Z.pos _ + Z.pos _) as [|m|m] eqn:E; try reflexivity; try lia.
  unfold binary_round. destruct (shl_align m _ _) as [mz ez].
  apply binary_round_aux_nonneg. lia.
Qed.
End Rounding.

Lemma add_nonneg x y : nonneg x -> nonneg y -> nonneg (PrimFloat.add x y).
Proof. rewrite !nonneg_spec, add_spec. apply SFadd_nonneg. Qed.

End FloatFacts.

(** * Facts about Python lists *)

(** Arithmetic on a wrapped subscript, by cases on its sign. *)
Ltac wrap_cases :=
  unfold Py.wrap, Py.len in *;
  repeat match goal with
         | |- context [?i <? 0] => destruct (Z.ltb_spec i 0)
         | H : context [?i <? 0] |- _ => destruct (Z.ltb_spec i 0)
         end;
  try lia; try reflexivity.

Section PyFacts.

Context {A : Type}.
Implicit Types (l : list A) (i j n : Z).

Lemma position_Some n i k :
  Py.position n i = Some k <-> Z.of_nat k = Py.wrap n i /\ 0 <= Py.wrap n i < n.
Proof.
  unfold Py.position.
  destruct (0 <=? Py.wrap n i) eqn:H0; destruct (Py.wrap n i <? n) eqn:Hn; simpl;
    split; try discriminate; try lia.
  - intros [= <-]. lia.
  - intros [H _]. f_equal. lia.
Qed.

Lemma position_nonneg n i : 0 <= i < n -> Py.position n i = Some (Z.to_nat i).
Proof.
  intros H. apply position_Some. wrap_cases.
Qed.

Lemma position_inside n i :
  - n <= i < n -> Py.position n i = Some (Z.to_nat (Py.wrap n i)).
Proof.
  intros H. apply position_Some. wrap_cases.
Qed.

Lemma position_None n i : i < - n \/ n <= i -> Py.position n i = None.
Proof.
  intros H. destruct (Py.position n i) as [k|] eqn:E; [|reflexivity].
  apply position_Some in E. wrap_cases.
Qed.

Lemma getitem_Ok l i x :
  Py.getitem l i = Ok x <-> exists k, Py.position (Py.len l) i = Some k /\ l !! k = Some x.
Proof.
  unfold Py.getitem. split.
  - destruct (Py.position _ _) as [k|]; [|discriminate].
    destruct (l !! k) eqn:E; [|discriminate]. intros [= ->]. eauto.
  - intros (k & -> & ->). reflexivity.
Qed.

Lemma getitem_elem_of l i x : Py.getitem l i = Ok x -> x ∈ l.
Proof.
  rewrite getitem_Ok. intros (k & _ & H). eapply list_elem_of_lookup_2, H.
Qed.

Lemma getitem_nonneg l i :
  0 <= i < Py.len l -> exists x, l !! Z.to_nat i = Some x /\ Py.getitem l i = Ok x.
Proof.
  intros H. destruct (lookup_lt_is_Some_2 l (Z.to_nat i)) as [x Hx].
  { unfold Py.len in H. lia. }
  exists x. split; [exact Hx|]. apply getitem_Ok. exists (Z.to_nat i).
  split; [apply position_nonneg, H | exact Hx].
Qed.

Lemma getitem_inside l i :
  - Py.len l <= i < Py.len l -> exists x, Py.getitem l i = Ok x.
Proof.
  intros H. unfold Py.getitem. rewrite position_inside by exact H.
  destruct (lookup_lt_is_Some_2 l (Z.to_nat (Py.wrap (Py.len l) i))) as [x ->]; [|eauto].
  wrap_cases.
Qed.

Lemma getitem_lookup l i : 0 <= i < Py.len l ->
  Py.getitem l i = match l !! Z.to_nat i with Some x => Ok x | None => Raise IndexError end.
Proof.
  intros H. unfold Py.getitem. rewrite position_nonneg by exact H. reflexivity.
Qed.

Lemma setitem_outside l i v :
  i < - Py.len l \/ Py.len l <= i -> Py.setitem l i v = Raise IndexError.
Proof. intros H. unfold Py.setitem. rewrite position_None by exact H. reflexivity. Qed.

Lemma slice_prefix l i :
  0 <= i <= Py.len l -> Py.slice l None (Some i) = take (Z.to_nat i) l.
Proof.
  intros H. unfold Py.slice, Py.bound. destruct (i <? 0) eqn:Hi; [lia|].
  rewrite Z.min_l by lia. rewrite Z.sub_0_r. reflexivity.
Qed.

Lemma slice_middle l i j :
  0 <= i <= j -> j <= Py.len l ->
  Py.slice l (Some i) (Some j) = take (Z.to_nat (j - i)) (drop (Z.to_nat i) l).
Proof.
  intros H1 H2. unfold Py.slice, Py.bound.
  destruct (i <? 0) eqn:Hi; [lia|]. destruct (j <? 0) eqn:Hj; [lia|].
  rewrite !Z.min_l by lia. reflexivity.
Qed.

Lemma slice_suffix l j :
  0 <= j <= Py.len l -> Py.slice l (Some j) None = drop (Z.to_nat j) l.
Proof.
  intros H. unfold Py.slice, Py.bound. destruct (j <? 0) eqn:Hj; [lia|].
  rewrite Z.min_l by lia. apply take_ge. rewrite length_drop. unfold Py.len. lia.
Qed.

End PyFacts.

Lemma elem_of_range lo hi i : i ∈ Py.range lo hi <-> lo <= i < hi.
Proof. unfold Py.range. rewrite elem_of_seqZ. lia. Qed.

Lemma range_empty lo hi : hi <= lo -> Py.range lo hi = [].
Proof.
  intros H. unfold Py.range, seqZ. replace (Z.to_nat (hi - lo)) with 0%nat by lia. reflexivity.
Qed.

(** A loop invariant is kept by [for_each] when each iteration keeps it. *)
Lemma for_each_invariant {St X : Type} (I : St -> Prop) (body : St -> X -> result St) xs s r :
  (forall s x s', x ∈ xs -> I s -> body s x = Ok s' -> I s') ->
  I s -> for_each body xs s = Ok r -> I r.
Proof.
  revert s. induction xs as [|x xs IH]; intros s Hstep Hs; simpl.
  - intros [= <-]. exact Hs.
  - destruct (body s x) as [s'|e] eqn:E; simpl; [|discriminate].
    apply IH.
    + intros s1 y s2 Hy. apply Hstep. right. exact Hy.
    + eapply Hstep; [left | exact Hs | exact E].
Qed.

(** A loop whose iterations never raise under the invariant returns. *)
Lemma for_each_total {St X : Type} (I : St -> Prop) (body : St -> X -> result St) xs s :
  (forall s x, x ∈ xs -> I s -> exists s', body s x = Ok s' /\ I s') ->
  I s -> exists r, for_each body xs s = Ok r /\ I r.
Proof.
  revert s. induction xs as [|x xs IH]; intros s Hstep Hs; simpl.
  - eauto.
  - destruct (Hstep s x) as (s' & E & Hs'); [left | exact Hs |].
    rewrite E. simpl. apply IH; [|exact Hs'].
    intros s1 y Hy. apply Hstep. right. exact Hy.
Qed.

(** * The segment reversal *)

(** Within the list, the slices of [two_opt_swap] are a prefix, a middle
    segment and a suffix of the path. *)
Lemma two_opt_swap_inside path i j :
  0 <= i <= j -> j < Py.len path ->
  two_opt_swap path i j =
    take (Z.to_nat i) path
      ++ reverse (take (Z.to_nat (j + 1 - i)) (drop (Z.to_nat i) path))
      ++ drop (Z.to_nat (j + 1)) path.
Proof.
  intros H1 H2. unfold two_opt_swap.
  rewrite slice_prefix, slice_middle, slice_suffix by lia. reflexivity.
Qed.

Lemma two_opt_swap_Permutation path i j :
  0 <= i <= j -> j < Py.len path -> two_opt_swap path i j ≡ₚ path.
Proof.
  intros H1 H2. rewrite two_opt_swap_inside by assumption.
  rewrite reverse_Permutation.
  replace (Z.to_nat (j + 1)) with (Z.to_nat i + Z.to_nat (j + 1 - i))%nat by lia.
  rewrite <- drop_drop, take_drop, take_drop. reflexivity.
Qed.

Lemma two_opt_swap_length path i j :
  0 <= i <= j -> j < Py.len path -> length (two_opt_swap path i j) = length path.
Proof.
  intros H1 H2. apply Permutation_length, two_opt_swap_Permutation; assumption.
Qed.

(** The element at position [k] of the swapped path: the segment [[i, j]] is
    read backwards, the rest is in place. *)
Lemma two_opt_swap_lookup path i j k :
  0 <= i <= j -> j < Py.len path -> 0 <= k < Py.len path ->
  two_opt_swap path i j !! Z.to_nat k =
    path !! Z.to_nat (if (i <=? k) && (k <=? j) then i + j - k else k).
Proof.
  intros H1 H2 H3. rewrite two_opt_swap_inside by assumption.
  unfold Py.len in *.
  set (mid := take (Z.to_nat (j + 1 - i)) (drop (Z.to_nat i) path)).
  assert (Hmid : length mid = Z.to_nat (j + 1 - i)).
  { unfold mid. rewrite length_take, length_drop. lia. }
  assert (Hpre : length (take (Z.to_nat i) path) = Z.to_nat i).
  { rewrite length_take. lia. }
  destruct (i <=? k) eqn:Hik; simpl.
  - destruct (k <=? j) eqn:Hkj.
    + rewrite lookup_app_r by lia. rewrite lookup_app_l by (rewrite length_reverse; lia).
      rewrite reverse_lookup by lia. rewrite Hmid, Hpre. unfold mid.
      rewrite lookup_take_lt by lia. rewrite lookup_drop. f_equal. lia.
    + rewrite lookup_app_r by lia. rewrite lookup_app_r by (rewrite length_reverse; lia).
      rewrite length_reverse, Hmid, Hpre, lookup_drop. f_equal. lia.
  - rewrite lookup_app_l by lia. rewrite lookup_take_lt by lia. reflexivity.
Qed.

Lemma two_opt_swap_getitem path i j k :
  0 <= i <= j -> j < Py.len path -> 0 <= k < Py.len path ->
  Py.getitem (two_opt_swap path i j) k =
    Py.getitem path (if (i <=? k) && (k <=? j) then i + j - k else k).
Proof.
  intros H1 H2 H3.
  assert (Hlen : Py.len (two_opt_swap path i j) = Py.len path).
  { unfold Py.len. rewrite two_opt_swap_length by assumption. reflexivity. }
  rewrite !getitem_lookup.
  - rewrite two_opt_swap_lookup by assumption. reflexivity.
  - destruct (i <=? k) eqn:Hik; destruct (k <=? j) eqn:Hkj; simpl; lia.
  - rewrite Hlen. exact H3.
Qed.

(** C10. For indices [0 <= i <= j < len(path)], [two_opt_swap] returns a list
    of the same length with the same elements in the same multiplicities: the
    elements before [i] and after [j] stay in place and the segment from [i]
    to [j] is reversed.  Hence a permutation of [0..n-1] stays one. *)
Theorem two_opt_swap_permutes (path : list Z) (i j : Z) :
  0 <= i <= j -> j < Py.len path ->
  length (two_opt_swap path i j) = length path
  /\ two_opt_swap path i j ≡ₚ path
  /\ (forall k, 0 <= k < Py.len path ->
        Py.getitem (two_opt_swap path i j) k =
          Py.getitem path (if (i <=? k) && (k <=? j) then i + j - k else k))
  /\ (forall n, path ≡ₚ seqZ 0 n -> two_opt_swap path i j ≡ₚ seqZ 0 n).
Proof.
  intros H1 H2. split; [|split; [|split]].
  - apply two_opt_swap_length; assumption.
  - apply two_opt_swap_Permutation; assumption.
  - intros k Hk. apply two_opt_swap_getitem; assumption.
  - intros n Hn. rewrite two_opt_swap_Permutation by assumption. exact Hn.
Qed.

Lemma two_opt_swap_permutes_witness :
  length (two_opt_swap [4; 0; 3; 1; 2] 1 3) = 5%nat
  /\ two_opt_swap [4; 0; 3; 1; 2] 1 3 = [4; 1; 3; 0; 2]
  /\ two_opt_swap [4; 0; 3; 1; 2] 1 3 ≡ₚ seqZ 0 5.
Proof.
  destruct (two_opt_swap_permutes [4; 0; 3; 1; 2] 1 3) as (Hlen & Hperm & Hget & Hseq).
  - lia.
  - vm_compute. reflexivity.
  - split; [exact Hlen|]. split; [reflexivity|].
    apply Hseq. vm_compute.
    apply (Permutation_trans (l' := [0; 4; 3; 1; 2])); [apply perm_swap|].
    apply perm_skip.
    apply (Permutation_trans (l' := [3; 4; 1; 2])); [apply perm_swap|].
    apply (Permutation_trans (l' := [3; 1; 4; 2])); [apply perm_skip, perm_swap|].
    apply (Permutation_trans (l' := [1; 3; 4; 2])); [apply perm_swap|].
    apply perm_skip.
    apply (Permutation_trans (l' := [3; 2; 4])); [apply perm_skip, perm_swap|].
    apply (Permutation_trans (l' := [2; 3; 4])); [apply perm_swap|].
    reflexivity.
Defined.

(** * The length of a path *)

Lemma add_edge_entry path m total i total' :
  add_edge path m total i = Ok total' ->
  exists row d, row ∈ m /\ d ∈ row /\ total' = PrimFloat.add total d.
Proof.
  unfold add_edge. intros H.
  destruct (Py.getitem path i) as [a|] eqn:Ha; [|discriminate]. simpl in H.
  destruct (Py.getitem m a) as [row|] eqn:Hrow; [|discriminate]. simpl in H.
  destruct (Py.getitem path (i + 1)) as [b|] eqn:Hb; [|discriminate]. simpl in H.
  destruct (Py.getitem row b) as [d|] eqn:Hd; [|discriminate]. simpl in H.
  injection H as <-. exists row, d.
  eauto using getitem_elem_of.
Qed.

(** On non-negative entries every partial sum is non-negative, so the length
    is a number. *)
Lemma calculate_path_distance_nonneg path m d :
  nonneg_entries m -> calculate_path_distance path m = Ok d -> nonneg d.
Proof.
  intros Hm. unfold calculate_path_distance.
  apply (for_each_invariant nonneg).
  - intros total i total' _ Htotal Hstep.
    apply add_edge_entry in Hstep as (row & e & Hrow & He & ->).
    apply add_nonneg; [exact Htotal|].
    unfold nonneg_entries in Hm. rewrite Forall_forall in Hm.
    specialize (Hm row Hrow). rewrite Forall_forall in Hm. apply Hm, He.
  - unfold nonneg, float_le. reflexivity.
Qed.

Lemma entry_total n m a b :
  square n m -> 0 <= a < Z.of_nat n -> 0 <= b < Z.of_nat n ->
  exists row d, Py.getitem m a = Ok row /\ Py.getitem row b = Ok d.
Proof.
  intros [Hlen Hrows] Ha Hb.
  destruct (getitem_nonneg m a) as (row & Hrow & Hget); [unfold Py.len; lia|].
  assert (length row = n) as Hn.
  { rewrite Forall_forall in Hrows. apply Hrows. eapply list_elem_of_lookup_2, Hrow. }
  destruct (getitem_nonneg row b) as (d & _ & Hd); [unfold Py.len; lia|].
  eauto.
Qed.

(** The length of a path of valid indices over a square matrix is defined. *)
Lemma calculate_path_distance_total n m path :
  square n m -> indices n path -> exists d, calculate_path_distance path m = Ok d.
Proof.
  intros Hm Hpath. unfold calculate_path_distance.
  destruct (for_each_total (fun _ => True) (add_edge path m)
              (Py.range 0 (Py.len path - 1)) PrimFloat.zero) as (d & Hd & _);
    [|exact I|eauto].
  intros total i Hi _. apply elem_of_range in Hi.
  unfold indices in Hpath. rewrite Forall_forall in Hpath.
  destruct (getitem_nonneg path i) as (a & _ & Ha); [lia|].
  destruct (getitem_nonneg path (i + 1)) as (b & _ & Hb); [lia|].
  destruct (entry_total n m a b Hm) as (row & d & Hrow & Hd);
    [eapply Hpath, getitem_elem_of, Ha | eapply Hpath, getitem_elem_of, Hb |].
  unfold add_edge. rewrite Ha. simpl. rewrite Hrow. simpl. rewrite Hb. simpl.
  rewrite Hd. simpl. eauto.
Qed.

(** * One pass of the local search *)

Lemma scan_j_Some p d m i jvals p' d' :
  scan_j p d m i jvals = Ok (Some (p', d')) ->
  exists j, j ∈ jvals /\ p' = two_opt_swap p i j
            /\ calculate_path_distance p' m = Ok d' /\ float_lt d' d.
Proof.
  induction jvals as [|j jvals IH]; simpl; [discriminate|].
  destruct (calculate_path_distance (two_opt_swap p i j) m) as [nd|] eqn:E;
    [|discriminate]. simpl.
  destruct (PrimFloat.ltb nd d) eqn:Hlt.
  - intros [= <- <-]. exists j. split; [left|]. auto.
  - intros H. destruct (IH H) as (j' & Hj' & Hrest). exists j'. split; [right; exact Hj'|].
    exact Hrest.
Qed.

Lemma scan_i_Some p d m ivals p' d' :
  scan_i p d m ivals = Ok (Some (p', d')) ->
  exists i j, i ∈ ivals /\ j ∈ Py.range (i + 1) (Py.len p - 1)
              /\ p' = two_opt_swap p i j
              /\ calculate_path_distance p' m = Ok d' /\ float_lt d' d.
Proof.
  induction ivals as [|i ivals IH]; simpl; [discriminate|].
  destruct (scan_j p d m i _) as [[[q e]|]|] eqn:E; simpl; [| |discriminate].
  - intros [= <- <-]. apply scan_j_Some in E as (j & Hj & Hrest).
    exists i, j. split; [left|]. auto.
  - intros H. destruct (IH H) as (i' & j & Hi' & Hrest). exists i', j.
    split; [right; exact Hi'|]. exact Hrest.
Qed.

(** An accepted move reverses a segment strictly inside the path and its
    length is below the best distance. *)
Lemma scan_Some p d m p' d' :
  scan p d m = Ok (Some (p', d')) ->
  exists i j, 1 <= i /\ i < j /\ j <= Py.len p - 2
              /\ p' = two_opt_swap p i j
              /\ calculate_path_distance p' m = Ok d' /\ float_lt d' d.
Proof.
  unfold scan. intros H. apply scan_i_Some in H as (i & j & Hi & Hj & Hrest).
  apply elem_of_range in Hi. apply elem_of_range in Hj.
  exists i, j. repeat split; try lia; apply Hrest.
Qed.

(** For at most three elements the range of [i] is empty. *)
Lemma scan_short p d m : (length p <= 3)%nat -> scan p d m = Ok None.
Proof.
  intros H. unfold scan. rewrite range_empty; [reflexivity|]. unfold Py.len. lia.
Qed.

(** What an accepted move keeps: the elements, the length, the two ends. *)
Lemma scan_frame p d m p' d' :
  scan p d m = Ok (Some (p', d')) ->
  p' ≡ₚ p /\ Py.len p' = Py.len p
  /\ Py.getitem p' 0 = Py.getitem p 0
  /\ Py.getitem p' (Py.len p - 1) = Py.getitem p (Py.len p - 1).
Proof.
  intros H. apply scan_Some in H as (i & j & Hi & Hij & Hj & -> & _).
  split; [apply two_opt_swap_Permutation; lia|].
  split; [unfold Py.len; rewrite two_opt_swap_length by lia; reflexivity|].
  split.
  - rewrite two_opt_swap_getitem by lia.
    replace (i <=? 0) with false by lia. reflexivity.
  - rewrite two_opt_swap_getitem by lia.
    replace (Py.len p - 1 <=? j) with false by lia. rewrite andb_false_r. reflexivity.
Qed.

(** * The search loop *)

(** Any property of the pair (best path, best distance) that accepted moves
    keep holds of the returned path, which admits no improving move. *)
Lemma improve_invariant (R : list Z -> float -> Prop) m :
  (forall p d p' d', R p d -> scan p d m = Ok (Some (p', d')) -> R p' d') ->
  forall fuel p d out,
    R p d -> improve fuel p d m = Some (Ok out) ->
    exists d', R out d' /\ scan out d' m = Ok None.
Proof.
  intros Hstep fuel. induction fuel as [|fuel IH]; intros p d out HR; simpl; [discriminate|].
  destruct (scan p d m) as [[[p' d']|]|] eqn:E.
  - apply IH. eapply Hstep; eauto.
  - intros [= <-]. eauto.
  - discriminate.
Qed.

(** More fuel does not change a result. *)
Lemma improve_mono m fuel fuel' p d r :
  (fuel <= fuel')%nat -> improve fuel p d m = Some r -> improve fuel' p d m = Some r.
Proof.
  revert fuel' p d. induction fuel as [|fuel IH]; intros fuel' p d Hle; simpl; [discriminate|].
  destruct fuel' as [|fuel']; [lia|]. simpl.
  destruct (scan p d m) as [[[p' d']|]|]; auto. apply IH. lia.
Qed.

Lemma filter_length_lt {A : Type} (P Q : A -> Prop)
    `{!forall y, Decision (P y)} `{!forall y, Decision (Q y)} (l : list A) (x : A) :
  (forall y, P y -> Q y) -> x ∈ l -> Q x -> ~ P x ->
  (length (filter P l) < length (filter Q l))%nat.
Proof.
  intros HPQ Hx HQ HP.
  assert (Hle : forall k : list A, (length (filter P k) <= length (filter Q k))%nat).
  { induction k as [|y k IHk]; [reflexivity|].
    rewrite !filter_cons. destruct (decide (P y)) as [Hy|Hy].
    - rewrite decide_True by auto. simpl. lia.
    - destruct (decide (Q y)); simpl; lia. }
  induction Hx as [x l|x y l Hx IH].
  - rewrite !filter_cons. rewrite decide_False by exact HP.
    rewrite decide_True by exact HQ. simpl. specialize (Hle l). lia.
  - specialize (IH HQ HP). rewrite !filter_cons. destruct (decide (P y)) as [Hy|Hy].
    + rewrite decide_True by auto. simpl. lia.
    + destruct (decide (Q y)); simpl; lia.
Qed.

(** An accepted move lowers the number of better arrangements. *)
Lemma rank_decreases m path p' d d' :
  p' ≡ₚ path -> calculate_path_distance p' m = Ok d' -> float_lt d' d ->
  (rank m path d' < rank m path d)%nat.
Proof.
  intros Hperm Hcalc Hlt. unfold rank.
  apply (filter_length_lt _ _ _ p').
  - intros q. unfold better. destruct (calculate_path_distance q m) as [e|]; [|discriminate].
    intros He. eapply float_lt_trans; [exact He | exact Hlt].
  - apply permutations_Permutation. symmetry. exact Hperm.
  - unfold better. rewrite Hcalc. exact Hlt.
  - unfold better. rewrite Hcalc. intros H. exact (float_lt_irrefl d' H).
Qed.

(** With more fuel than the rank of the best distance the loop ends. *)
Lemma improve_terminates m path fuel p d :
  p ≡ₚ path -> (rank m path d < fuel)%nat -> exists r, improve fuel p d m = Some r.
Proof.
  revert p d. induction fuel as [|fuel IH]; intros p d Hperm Hrank; [lia|]. simpl.
  destruct (scan p d m) as [[[p' d']|]|] eqn:E; eauto.
  pose proof (scan_frame _ _ _ _ _ E) as (Hp' & _).
  apply scan_Some in E as (i & j & _ & _ & _ & _ & Hcalc & Hlt).
  assert (p' ≡ₚ path) as Hperm' by (etrans; eassumption).
  apply IH; [exact Hperm'|].
  pose proof (rank_decreases m path p' d d' Hperm' Hcalc Hlt). lia.
Qed.

Lemma length_interleave {A : Type} (x : A) (l : list A) :
  length (interleave x l) = S (length l).
Proof.
  induction l as [|y l IH]; [reflexivity|].
  simpl. rewrite length_fmap, IH. reflexivity.
Qed.

Lemma length_bind_const {A B : Type} (f : A -> list B) (k : nat) (l : list A) :
  Forall (fun x => length (f x) = k) l -> length (l ≫= f) = (length l * k)%nat.
Proof.
  induction 1 as [|x l Hx _ IH]; [reflexivity|].
  rewrite bind_cons, length_app, Hx, IH. reflexivity.
Qed.

(** A list of [n] elements has [n!] arrangements. *)
Lemma length_permutations {A : Type} (l : list A) :
  length (permutations l) = fact (length l).
Proof.
  induction l as [|x l IH]; [reflexivity|].
  simpl permutations. rewrite (length_bind_const _ (S (length l))).
  - rewrite IH. simpl. lia.
  - apply Forall_forall. intros p Hp. rewrite length_interleave. f_equal.
    apply permutations_Permutation in Hp. symmetry. apply Permutation_length, Hp.
Qed.

(** The rank of the length of the path itself is below [n!]: the path is one
    of its arrangements and is not better than itself. *)
Lemma rank_initial m path d :
  calculate_path_distance path m = Ok d -> (rank m path d < fact (length path))%nat.
Proof.
  intros Hcalc. rewrite <- length_permutations. unfold rank.
  apply (length_filter_lt _ _ path).
  - apply permutations_refl.
  - unfold better. rewrite Hcalc. intros H. exact (float_lt_irrefl d H).
Qed.

(** ** No failure on well-formed inputs *)

Lemma scan_j_total p d m i jvals :
  (forall j, j ∈ jvals -> exists e, calculate_path_distance (two_opt_swap p i j) m = Ok e) ->
  exists r, scan_j p d m i jvals = Ok r.
Proof.
  induction jvals as [|j jvals IH]; intros H; simpl; [eauto|].
  destruct (H j) as (e & ->); [left|]. simpl.
  destruct (PrimFloat.ltb e d); [eauto|]. apply IH. intros j' Hj'. apply H. right. exact Hj'.
Qed.

Lemma scan_i_total p d m ivals :
  (forall i j, i ∈ ivals -> j ∈ Py.range (i + 1) (Py.len p - 1) ->
               exists e, calculate_path_distance (two_opt_swap p i j) m = Ok e) ->
  exists r, scan_i p d m ivals = Ok r.
Proof.
  induction ivals as [|i ivals IH]; intros H; simpl; [eauto|].
  destruct (scan_j_total p d m i (Py.range (i + 1) (Py.len p - 1))) as (r & ->).
  { intros j Hj. apply (H i j); [left | exact Hj]. }
  simpl. destruct r as [move|]; [eauto|].
  apply IH. intros i' j Hi'. apply H. right. exact Hi'.
Qed.

Lemma indices_Permutation n p q : p ≡ₚ q -> indices n q -> indices n p.
Proof. unfold indices. intros H. rewrite H. auto. Qed.

Lemma scan_total n m p d :
  square n m -> indices n p -> exists r, scan p d m = Ok r.
Proof.
  intros Hm Hp. unfold scan. apply scan_i_total. intros i j Hi Hj.
  apply elem_of_range in Hi. apply elem_of_range in Hj.
  apply (calculate_path_distance_total n); [exact Hm|].
  eapply indices_Permutation; [|exact Hp]. apply two_opt_swap_Permutation; lia.
Qed.

Lemma improve_total n m path fuel p d :
  square n m -> indices n path -> p ≡ₚ path -> (rank m path d < fuel)%nat ->
  exists out, improve fuel p d m = Some (Ok out).
Proof.
  intros Hm Hpath. revert p d.
  induction fuel as [|fuel IH]; intros p d Hperm Hrank; [lia|]. simpl.
  destruct (scan_total n m p d Hm) as (r & E); [eapply indices_Permutation; eauto|].
  rewrite E. destruct r as [[p' d']|]; [|eauto].
  pose proof (scan_frame _ _ _ _ _ E) as (Hp' & _).
  apply scan_Some in E as (i & j & _ & _ & _ & _ & Hcalc & Hlt).
  assert (p' ≡ₚ path) as Hperm' by (etrans; eassumption).
  apply IH; [exact Hperm'|].
  pose proof (rank_decreases m path p' d d' Hperm' Hcalc Hlt). lia.
Qed.

Lemma reached_start m path d0 :
  calculate_path_distance path m = Ok d0 -> reached m path d0 path d0.
Proof. intros H. unfold reached. auto 10. Qed.

Lemma reached_step m path d0 p d p' d' :
  reached m path d0 p d -> scan p d m = Ok (Some (p', d')) -> reached m path d0 p' d'.
Proof.
  intros (Hcalc & Hd & Hperm & Hlen & Hfirst & Hlast) Hscan.
  pose proof (scan_frame _ _ _ _ _ Hscan) as (Hperm' & Hlen' & Hfirst' & Hlast').
  apply scan_Some in Hscan as (i & j & _ & _ & _ & _ & Hcalc' & Hlt).
  unfold reached. split; [exact Hcalc'|]. split.
  { right. destruct Hd as [->|Hd]; [exact Hlt | eapply float_lt_trans; eauto]. }
  split; [etrans; eassumption|]. split; [congruence|]. split; [congruence|].
  rewrite <- Hlen. congruence.
Qed.

(** The returned path, its length and the final pass. *)
Lemma two_opt_improvement_reached fuel path m out :
  two_opt_improvement fuel path m = Some (Ok out) ->
  exists d0 d, calculate_path_distance path m = Ok d0
               /\ reached m path d0 out d /\ scan out d m = Ok None.
Proof.
  unfold two_opt_improvement.
  destruct (calculate_path_distance path m) as [d0|] eqn:E; [|discriminate].
  intros H. exists d0.
  destruct (improve_invariant (reached m path d0) m (reached_step m path d0)
              fuel path d0 out (reached_start m path d0 E) H) as (d & Hd & Hscan).
  eauto.
Qed.

(** * The local search: the claims *)

Lemma square4_nonneg : nonneg_entries square4.
Proof. repeat constructor. Qed.

Lemma square4_square : square 4 square4.
Proof. split; [reflexivity | repeat constructor]. Qed.

(** C5. [two_opt_improvement] never increases the length of the tour.  An
    accepted move, from a best path whose length is the best distance, yields
    a path whose length ([calculate_path_distance]) is strictly below it; and
    over a matrix of non-negative distances the length of the returned tour
    is at most the length of the input tour. *)
Theorem two_opt_improvement_never_longer (m : matrix) :
  (forall p d p' d',
      calculate_path_distance p m = Ok d ->
      scan p d m = Ok (Some (p', d')) ->
      calculate_path_distance p' m = Ok d' /\ float_lt d' d)
  /\ (forall fuel path out,
         nonneg_entries m ->
         two_opt_improvement fuel path m = Some (Ok out) ->
         exists d0 d1, calculate_path_distance path m = Ok d0
                       /\ calculate_path_distance out m = Ok d1
                       /\ float_le d1 d0).
Proof.
  split.
  - intros p d p' d' _ Hscan.
    apply scan_Some in Hscan as (i & j & _ & _ & _ & _ & Hcalc & Hlt). auto.
  - intros fuel path out Hm Hrun.
    apply two_opt_improvement_reached in Hrun as (d0 & d1 & Hd0 & Hreach & _).
    destruct Hreach as (Hd1 & Hcmp & _).
    exists d0, d1. split; [exact Hd0|]. split; [exact Hd1|].
    destruct Hcmp as [->|Hlt].
    + eapply nonneg_le_refl, calculate_path_distance_nonneg; eauto.
    + apply float_lt_le, Hlt.
Qed.

Lemma two_opt_improvement_never_longer_witness :
  (calculate_path_distance [0; 1; 2; 3] square4 = Ok 3%float /\ float_lt 3 5)
  /\ exists d0 d1, calculate_path_distance [0; 2; 1; 3] square4 = Ok d0
                   /\ calculate_path_distance [0; 1; 2; 3] square4 = Ok d1
                   /\ float_le d1 d0.
Proof.
  destruct (two_opt_improvement_never_longer square4) as [Hmove Hrun]. split.
  - apply (Hmove [0; 2; 1; 3] 5%float [0; 1; 2; 3] 3%float); vm_compute; reflexivity.
  - apply (Hrun 2%nat [0; 2; 1; 3] [0; 1; 2; 3]).
    + exact square4_nonneg.
    + vm_compute. reflexivity.
Defined.

(** C6. [two_opt_improvement] is idempotent: applied to a tour it returned,
    it returns that tour unchanged, after a single pass. *)
Theorem two_opt_improvement_idempotent (fuel : nat) (path : list Z) (m : matrix)
    (out : list Z) :
  two_opt_improvement fuel path m = Some (Ok out) ->
  forall fuel', two_opt_improvement (S fuel') out m = Some (Ok out).
Proof.
  intros Hrun fuel'.
  apply two_opt_improvement_reached in Hrun as (d0 & d & _ & Hreach & Hscan).
  destruct Hreach as (Hd & _).
  unfold two_opt_improvement. rewrite Hd. simpl. rewrite Hscan. reflexivity.
Qed.

Lemma two_opt_improvement_idempotent_witness :
  two_opt_improvement 1 [0; 1; 2; 3] square4 = Some (Ok [0; 1; 2; 3]).
Proof.
  apply (two_opt_improvement_idempotent 2 [0; 2; 1; 3] square4 [0; 1; 2; 3]).
  vm_compute. reflexivity.
Defined.

(** C7. [two_opt_improvement] terminates on every path and matrix.  Each
    accepted move strictly lowers the best distance, so it lowers the number
    of arrangements of the path that are better than the best distance;
    there are [n!] arrangements, hence after fewer than [n!] accepted moves a
    pass finds no improving swap (or the call has raised).  On a square
    matrix and a path of valid indices nothing raises and a tour is
    returned. *)
Theorem two_opt_improvement_terminates (path : list Z) (m : matrix) :
  exists r,
    (forall fuel, (fact (length path) <= fuel)%nat ->
                  two_opt_improvement fuel path m = Some r)
    /\ (forall out, r = Ok out ->
          exists d, calculate_path_distance out m = Ok d /\ scan out d m = Ok None)
    /\ (forall n, square n m -> indices n path -> exists out, r = Ok out).
Proof.
  unfold two_opt_improvement.
  destruct (calculate_path_distance path m) as [d0|e] eqn:E.
  - pose proof (rank_initial m path d0 E) as Hrank.
    destruct (improve_terminates m path (fact (length path)) path d0) as (r & Hr);
      [reflexivity | exact Hrank |].
    exists r. split; [|split].
    + intros fuel Hfuel. eapply improve_mono; eauto.
    + intros out ->.
      assert (two_opt_improvement (fact (length path)) path m = Some (Ok out)) as Hrun.
      { unfold two_opt_improvement. rewrite E. exact Hr. }
      apply two_opt_improvement_reached in Hrun as (d1 & d & _ & Hreach & Hscan).
      destruct Hreach as (Hd & _). eauto.
    + intros n Hm Hpath.
      destruct (improve_total n m path (fact (length path)) path d0) as (out & Hout);
        [exact Hm | exact Hpath | reflexivity | exact Hrank |].
      exists out. congruence.
  - exists (Raise e). split; [|split].
    + reflexivity.
    + discriminate.
    + intros n Hm Hpath.
      destruct (calculate_path_distance_total n m path Hm Hpath) as (d & Hd). congruence.
Qed.

Lemma two_opt_improvement_terminates_witness :
  exists r, two_opt_improvement 24 [0; 2; 1; 3] square4 = Some r
            /\ exists out, r = Ok out.
Proof.
  destruct (two_opt_improvement_terminates [0; 2; 1; 3] square4) as (r & Hfuel & _ & Hok).
  exists r. split.
  - apply Hfuel. vm_compute. lia.
  - apply (Hok 4%nat).
    + exact square4_square.
    + unfold indices. repeat (constructor; [lia|]). constructor.
Defined.

(** C8. [two_opt_improvement] holds the two ends of the tour fixed: the
    returned tour has the length [n] of the input, the same element at
    position [0] and the same element at position [n - 1].  The pairs
    [(i, j)] that a pass tries satisfy [1 <= i < j <= n - 2], and a swap that
    is accepted reverses the segment of such a pair. *)
Theorem two_opt_improvement_ends_fixed (m : matrix) :
  (forall fuel path out,
      two_opt_improvement fuel path m = Some (Ok out) ->
      Py.len out = Py.len path
      /\ Py.getitem out 0 = Py.getitem path 0
      /\ Py.getitem out (Py.len path - 1) = Py.getitem path (Py.len path - 1))
  /\ (forall (p : list Z) i j,
         i ∈ Py.range 1 (Py.len p - 2) -> j ∈ Py.range (i + 1) (Py.len p - 1) ->
         1 <= i /\ i < j /\ j <= Py.len p - 2)
  /\ (forall p d p' d',
         scan p d m = Ok (Some (p', d')) ->
         exists i j, 1 <= i /\ i < j /\ j <= Py.len p - 2 /\ p' = two_opt_swap p i j).
Proof.
  split; [|split].
  - intros fuel path out Hrun.
    apply two_opt_improvement_reached in Hrun as (d0 & d & _ & Hreach & _).
    destruct Hreach as (_ & _ & _ & Hlen & Hfirst & Hlast). auto.
  - intros p i j Hi Hj. apply elem_of_range in Hi. apply elem_of_range in Hj. lia.
  - intros p d p' d' Hscan.
    apply scan_Some in Hscan as (i & j & Hi & Hij & Hj & Heq & _). eauto 10.
Qed.

Lemma two_opt_improvement_ends_fixed_witness :
  (Py.len [0; 1; 2; 3] = Py.len [0; 2; 1; 3]
   /\ Py.getitem [0; 1; 2; 3] 0 = Py.getitem [0; 2; 1; 3] 0
   /\ Py.getitem [0; 1; 2; 3] (Py.len [0; 2; 1; 3] - 1)
      = Py.getitem [0; 2; 1; 3] (Py.len [0; 2; 1; 3] - 1))
  /\ exists i j, 1 <= i /\ i < j /\ j <= Py.len [0; 2; 1; 3] - 2
                 /\ [0; 1; 2; 3] = two_opt_swap [0; 2; 1; 3] i j.
Proof.
  destruct (two_opt_improvement_ends_fixed square4) as (Hrun & _ & Hmove). split.
  - apply (Hrun 2%nat). vm_compute. reflexivity.
  - apply (Hmove [0; 2; 1; 3] 5%float [0; 1; 2; 3] 3%float). vm_compute. reflexivity.
Defined.

(** C9. A path of at most three elements is returned unchanged whatever the
    entries of the matrix: the range of [i] is empty, so a pass attempts no
    swap.  (The path is a path of valid indices over a square matrix, so
    that its length is defined.) *)
Theorem two_opt_improvement_short (n : nat) (m : matrix) (path : list Z) (fuel : nat) :
  square n m -> indices n path -> (length path <= 3)%nat ->
  Py.range 1 (Py.len path - 2) = []
  /\ two_opt_improvement (S fuel) path m = Some (Ok path).
Proof.
  intros Hm Hpath Hlen. split.
  - apply range_empty. unfold Py.len. lia.
  - unfold two_opt_improvement.
    destruct (calculate_path_distance_total n m path Hm Hpath) as (d & ->).
    simpl. rewrite scan_short by exact Hlen. reflexivity.
Qed.

Lemma two_opt_improvement_short_witness :
  Py.range 1 (Py.len [2; 0; 1] - 2) = []
  /\ two_opt_improvement 1 [2; 0; 1] square4 = Some (Ok [2; 0; 1]).
Proof.
  apply (two_opt_improvement_short 4 square4 [2; 0; 1] 0).
  - exact square4_square.
  - unfold indices. repeat (constructor; [lia|]). constructor.
  - simpl. lia.
Defined.

(** * The greedy construction *)

(** A loop whose [j]-th iteration takes the invariant from [j] to [j + 1]
    returns, with the invariant at the number of iterations. *)
Lemma for_each_indexed {St X : Type} (I : nat -> St -> Prop)
    (body : St -> X -> result St) xs s :
  (forall j x s, xs !! j = Some x -> I j s -> exists s', body s x = Ok s' /\ I (S j) s') ->
  I 0%nat s -> exists r, for_each body xs s = Ok r /\ I (length xs) r.
Proof.
  revert I s. induction xs as [|x xs IH]; intros I s Hstep H0; simpl; [eauto|].
  destruct (Hstep 0%nat x s eq_refl H0) as (s' & E & H1). rewrite E. simpl.
  apply (IH (fun j => I (S j))); [|exact H1].
  intros j y s1 Hy. apply (Hstep (S j)). exact Hy.
Qed.

Lemma lookup_range lo hi j x :
  Py.range lo hi !! j = Some x <-> x = lo + Z.of_nat j /\ lo + Z.of_nat j < hi.
Proof. unfold Py.range. rewrite lookup_seqZ. lia. Qed.

Lemma length_range lo hi : length (Py.range lo hi) = Z.to_nat (hi - lo).
Proof. unfold Py.range. apply length_seqZ. Qed.

(** A start index outside [[-n, n)] is rejected by [visited[start_index] =
    True]. *)
Lemma greedy_tsp_rejects m start :
  start < - Py.len m \/ Py.len m <= start -> greedy_tsp m start = Raise IndexError.
Proof.
  intros H. unfold greedy_tsp. rewrite setitem_outside; [reflexivity|].
  unfold Py.len in *. rewrite length_replicate. lia.
Qed.

Section Greedy.

Variables (k : nat) (m : matrix).
Hypothesis Hsquare : square k m.
Hypothesis Hfinite : finite_entries m.

Local Abbreviation n := (Z.of_nat k).

Lemma len_matrix : Py.len m = n.
Proof. unfold Py.len. destruct Hsquare as [-> _]. reflexivity. Qed.

Lemma entry_finite current candidate :
  - n <= current < n -> 0 <= candidate < n ->
  exists d, entry m current candidate = Ok d /\ float_lt d PrimFloat.infinity.
Proof.
  intros Hcur Hcand. unfold entry.
  destruct (getitem_inside m current) as (row & Hrow); [rewrite len_matrix; exact Hcur|].
  rewrite Hrow. simpl. apply getitem_elem_of in Hrow.
  assert (length row = k) as Hlen.
  { destruct Hsquare as [_ Hrows]. rewrite Forall_forall in Hrows. apply Hrows, Hrow. }
  destruct (getitem_nonneg row candidate) as (d & _ & Hd); [unfold Py.len; lia|].
  exists d. split; [exact Hd|]. apply getitem_elem_of in Hd.
  unfold finite_entries in Hfinite. rewrite Forall_forall in Hfinite.
  specialize (Hfinite row Hrow). rewrite Forall_forall in Hfinite. apply Hfinite, Hd.
Qed.

(** The candidate scan takes a place that is not visited, when there is
    one. *)
Lemma consider_loop visited current :
  length visited = k -> - n <= current < n ->
  (exists u, visited !! u = Some false) ->
  exists next d,
    for_each (consider m visited current) (Py.range 0 n) (None, PrimFloat.infinity)
      = Ok (Some next, d)
    /\ 0 <= next < n /\ visited !! Z.to_nat next = Some false.
Proof.
  intros Hlen Hcur (u & Hu).
  set (I := fun (j : nat) (c : choice) =>
    (c = (None, PrimFloat.infinity)
     \/ exists x, c.1 = Some x /\ 0 <= x < n /\ visited !! Z.to_nat x = Some false)
    /\ (forall v, (v < j)%nat -> visited !! v = Some false -> is_Some c.1)).
  destruct (for_each_indexed I (consider m visited current) (Py.range 0 n)
              (None, PrimFloat.infinity)) as (c & Hc & Hshape & Hall).
  - intros j x c Hx (Hshape & Hall). apply lookup_range in Hx as [-> Hj].
    rewrite Z.add_0_l in *. unfold consider.
    destruct (getitem_nonneg visited (Z.of_nat j)) as (seen & Hseen & ->);
      [unfold Py.len; lia|]. rewrite Nat2Z.id in Hseen. simpl.
    destruct seen.
    + exists c. split; [reflexivity|]. split; [exact Hshape|].
      intros v Hv Hfalse. destruct (decide (v = j)) as [->|]; [congruence|].
      apply (Hall v); [lia | exact Hfalse].
    + destruct (entry_finite current (Z.of_nat j)) as (d & -> & Hd); [exact Hcur | lia|].
      simpl. destruct (PrimFloat.ltb d c.2) eqn:Hlt.
      * eexists. split; [reflexivity|]. split.
        -- right. exists (Z.of_nat j). rewrite Nat2Z.id. split; [reflexivity|].
           split; [lia | exact Hseen].
        -- intros v _ _. simpl. eauto.
      * exists c. split; [reflexivity|]. split; [exact Hshape|].
        intros v Hv Hfalse. destruct Hshape as [->|(x & Hx & _)].
        -- simpl in Hlt. unfold float_lt in Hd. congruence.
        -- rewrite Hx. eauto.
  - split; [left; reflexivity|]. intros v Hv. lia.
  - assert (is_Some c.1) as [next Hnext].
    { apply (Hall u); [|exact Hu]. rewrite length_range.
      apply lookup_lt_Some in Hu. lia. }
    destruct Hshape as [->|(x & Hx & Hrange & Hfalse)]; [discriminate|].
    destruct c as [c1 d]. simpl in *. subst c1.
    exists x, d. auto.
Qed.

(** While fewer than [k] places are on the path, one is not visited. *)
Lemma unvisited_exists start j st :
  visiting k start j st -> (S j < k)%nat -> exists u, st.2 !! u = Some false.
Proof.
  intros (Hlen & Hpath & _ & _ & Hnodup & Hvis) Hj.
  destruct (decide (false ∈ st.2)) as [Hin|Hnot].
  { apply list_elem_of_lookup_1 in Hin. exact Hin. }
  exfalso.
  assert (seqZ 0 n ⊆+ Py.wrap n <$> st.1) as Hsub.
  { apply NoDup_submseteq; [apply NoDup_seqZ|].
    intros x Hx. apply elem_of_seqZ in Hx.
    destruct (lookup_lt_is_Some_2 st.2 (Z.to_nat x)) as [b Hb]; [lia|].
    destruct b; [|exfalso; eapply Hnot, list_elem_of_lookup_2, Hb].
    apply Hvis in Hb; [|lia]. rewrite Z2Nat.id in Hb by lia. exact Hb. }
  apply submseteq_length in Hsub.
  rewrite length_seqZ, length_fmap, Hpath in Hsub. lia.
Qed.

(** One iteration of the loop of [greedy_tsp] keeps the invariant. *)
Lemma visit_next_step start j st x :
  - n <= start < n -> visiting k start j st -> (S j < k)%nat ->
  exists st', visit_next m n st x = Ok st' /\ visiting k start (S j) st'.
Proof.
  intros Hstart Hinv Hj.
  destruct (unvisited_exists start j st Hinv Hj) as (u & Hu).
  destruct st as [path visited].
  destruct Hinv as (Hlen & Hpath & Hhead & Htail & Hnodup & Hvis). simpl in *.
  destruct path as [|a rest]; [discriminate|]. injection Hhead as ->. simpl in Htail.
  destruct (getitem_inside (start :: rest) (-1)) as (current & Hcurrent).
  { unfold Py.len. simpl length. lia. }
  rewrite Hcurrent. simpl.
  assert (- n <= current < n) as Hcur.
  { apply getitem_elem_of, elem_of_cons in Hcurrent as [->|Hin]; [exact Hstart|].
    rewrite Forall_forall in Htail. specialize (Htail current Hin). lia. }
  destruct (consider_loop visited current Hlen Hcur (ex_intro _ u Hu))
    as (next & d & -> & Hnext & Hfalse).
  simpl. unfold Py.setitem.
  rewrite position_nonneg by (unfold Py.len; lia). simpl.
  eexists. split; [reflexivity|].
  assert (Py.wrap n next = next) as Hwrap.
  { wrap_cases. }
  assert (next ∉ Py.wrap n <$> start :: rest) as Hfresh.
  { intros Hin. replace next with (Z.of_nat (Z.to_nat next)) in Hin by lia.
    apply Hvis in Hin; [congruence | lia]. }
  unfold visiting. simpl.
  split; [rewrite length_insert; exact Hlen|].
  split; [rewrite length_app; simpl in *; lia|].
  split; [reflexivity|].
  split; [apply Forall_app; split; [exact Htail | repeat constructor; lia]|].
  split.
  - change (NoDup (Py.wrap n <$> (start :: rest) ++ [next])).
    rewrite fmap_app. apply NoDup_app. split; [exact Hnodup|]. split.
    + intros y Hy Hy'. simpl in Hy'. apply list_elem_of_singleton in Hy'.
      subst y. rewrite Hwrap in Hy. exact (Hfresh Hy).
    + apply NoDup_singleton.
  - intros v Hv.
    change (<[Z.to_nat next:=true]> visited !! v = Some true
            <-> Z.of_nat v ∈ Py.wrap n <$> (start :: rest) ++ [next]).
    rewrite fmap_app, elem_of_app. simpl (Py.wrap n <$> [next]).
    rewrite list_elem_of_singleton, Hwrap.
    destruct (decide (Z.to_nat next = v)) as [<-|Hne].
    + rewrite list_lookup_insert_eq by lia. split; [right; lia | reflexivity].
    + rewrite list_lookup_insert_ne by exact Hne. rewrite Hvis by exact Hv.
      split; [auto|]. intros [H|H]; [exact H | lia].
Qed.

(** A start index in [[-n, n)] is accepted: the path returned begins with
    it, and its [n] elements denote each of the [n] places once. *)
Lemma greedy_tsp_accepts start :
  - n <= start < n ->
  exists path, greedy_tsp m start = Ok path
               /\ length path = k
               /\ head path = Some start
               /\ Forall (fun a => 0 <= a < n) (tail path)
               /\ Py.wrap n <$> path ≡ₚ seqZ 0 n.
Proof.
  intros Hstart. unfold greedy_tsp. rewrite len_matrix.
  unfold Py.setitem. rewrite position_inside
    by (unfold Py.len; rewrite length_replicate; lia).
  simpl. unfold Py.len. rewrite length_replicate, Nat2Z.id.
  set (pos := Z.to_nat (Py.wrap n start)).
  assert (0 <= Py.wrap n start < n) as Hwrap.
  { wrap_cases. }
  destruct (for_each_indexed (fun j st => visiting k start j st)
              (visit_next m n) (Py.range 0 (n - 1))
              ([start], <[pos:=true]> (replicate k false))) as (st & -> & Hinv).
  - intros j x st Hx Hinv. apply lookup_range in Hx as [_ Hx].
    apply visit_next_step; [exact Hstart | exact Hinv | lia].
  - unfold visiting. simpl.
    split; [rewrite length_insert, length_replicate; reflexivity|].
    split; [reflexivity|]. split; [reflexivity|]. split; [constructor|].
    split; [apply NoDup_singleton|].
    intros v Hv. rewrite list_elem_of_singleton.
    destruct (decide (pos = v)) as [<-|Hne].
    + rewrite list_lookup_insert_eq by (rewrite length_replicate; lia).
      split; [intros _; unfold pos; lia | reflexivity].
    + rewrite list_lookup_insert_ne by exact Hne.
      rewrite lookup_replicate_2 by exact Hv. split; [discriminate|].
      intros H. exfalso. apply Hne. unfold pos. lia.
  - simpl. destruct st as [path visited].
    destruct Hinv as (Hlen & Hpath & Hhead & Htail & Hnodup & Hvis). simpl in *.
    rewrite length_range in Hpath.
    exists path. split; [reflexivity|]. split; [lia|]. split; [exact Hhead|].
    split; [exact Htail|].
    apply submseteq_length_Permutation.
    + apply NoDup_submseteq; [exact Hnodup|].
      intros y Hy. apply elem_of_seqZ.
      destruct path as [|a rest]; [discriminate|]. injection Hhead as ->.
      rewrite fmap_cons in Hy. apply elem_of_cons in Hy as [->|Hy]; [lia|].
      apply list_elem_of_fmap in Hy as (z & -> & Hz).
      simpl in Htail. rewrite Forall_forall in Htail. specialize (Htail z Hz).
      wrap_cases.
    + rewrite length_seqZ, length_fmap. lia.
Qed.

End Greedy.

(** * The greedy construction: the claims *)

Lemma square4_finite : finite_entries square4.
Proof. repeat constructor. Qed.

Lemma two_points_square : square 2 two_points.
Proof. split; [reflexivity | repeat constructor]. Qed.

Lemma two_points_finite : finite_entries two_points.
Proof. repeat constructor. Qed.

(** C2, as the code has it.  [greedy_tsp] signals an [IndexError] whenever
    the start index is at least [n] or below [-n], whatever the matrix.  A
    negative start index from [-n] to [-1] is not rejected: on an [n] by [n]
    matrix of finite distances a path beginning with it is returned, the
    index denoting the place [n + start_index]. *)
Theorem greedy_tsp_start_range :
  (forall m start,
      start < - Py.len m \/ Py.len m <= start -> greedy_tsp m start = Raise IndexError)
  /\ (forall k m start,
         square k m -> finite_entries m -> - Z.of_nat k <= start < 0 ->
         exists path, greedy_tsp m start = Ok path /\ head path = Some start).
Proof.
  split.
  - exact greedy_tsp_rejects.
  - intros k m start Hm Hfin Hstart.
    destruct (greedy_tsp_accepts k m Hm Hfin start) as (path & Hrun & _ & Hhead & _);
      [lia|]. eauto.
Qed.

Lemma greedy_tsp_start_range_witness :
  (greedy_tsp two_points 2 = Raise IndexError
   /\ greedy_tsp two_points (-3) = Raise IndexError)
  /\ exists path, greedy_tsp two_points (-2) = Ok path /\ head path = Some (-2).
Proof.
  destruct greedy_tsp_start_range as [Hout Hneg]. split; [split|].
  - apply Hout. right. vm_compute. discriminate.
  - apply Hout. left. vm_compute. reflexivity.
  - apply (Hneg 2%nat).
    + exact two_points_square.
    + exact two_points_finite.
    + lia.
Defined.

(** C2 as stated fails: on two points the start index [-1] raises nothing
    and a tour is returned. *)
Lemma greedy_tsp_negative_start_accepted :
  greedy_tsp two_points (-1) = Ok [-1; 0].
Proof. vm_compute. reflexivity. Qed.

(** C3, as the code has it.  On the empty matrix [greedy_tsp] raises
    [IndexError] for every start index: [visited] is empty when
    [visited[start_index] = True] runs. *)
Theorem greedy_tsp_empty (start : Z) : greedy_tsp [] start = Raise IndexError.
Proof. apply greedy_tsp_rejects. unfold Py.len. simpl. lia. Qed.

(** C3 as stated fails: no empty tour is returned for the empty matrix. *)
Lemma greedy_tsp_empty_no_tour :
  greedy_tsp [] 0 = Raise IndexError /\ greedy_tsp [] 0 <> Ok [].
Proof. split; [vm_compute; reflexivity | discriminate]. Qed.

(** C4. On an [n] by [n] matrix of finite distances and for a start index in
    [[0, n)] (so [n >= 1]), [greedy_tsp] returns a list of length [n] that is
    a permutation of [0..n-1], without repeats, whose first element is the
    start index. *)
Theorem greedy_tsp_permutation (k : nat) (m : matrix) (start : Z) :
  square k m -> finite_entries m -> 0 <= start < Z.of_nat k ->
  exists path, greedy_tsp m start = Ok path
               /\ length path = k
               /\ path ≡ₚ seqZ 0 (Z.of_nat k)
               /\ NoDup path
               /\ head path = Some start.
Proof.
  intros Hm Hfin Hstart.
  destruct (greedy_tsp_accepts k m Hm Hfin start)
    as (path & Hrun & Hlen & Hhead & Htail & Hperm); [lia|].
  assert (Py.wrap (Z.of_nat k) <$> path = path) as Hid.
  { destruct path as [|a rest]; [discriminate|]. injection Hhead as ->.
    simpl in Htail. rewrite fmap_cons. f_equal.
    - wrap_cases.
    - clear Hrun Hlen Hperm. induction Htail as [|z rest Hz _ IH]; [reflexivity|].
      rewrite fmap_cons, IH. f_equal.
      wrap_cases. }
  rewrite Hid in Hperm.
  exists path. split; [exact Hrun|]. split; [exact Hlen|]. split; [exact Hperm|].
  split; [|exact Hhead]. rewrite Hperm. apply NoDup_seqZ.
Qed.

Lemma greedy_tsp_permutation_witness :
  exists path, greedy_tsp square4 2 = Ok path
               /\ length path = 4%nat
               /\ path ≡ₚ seqZ 0 4
               /\ NoDup path
               /\ head path = Some 2.
Proof.
  apply (greedy_tsp_permutation 4 square4 2).
  - exact square4_square.
  - exact square4_finite.
  - lia.
Defined.

(** * Further properties of the segment reversal and the path length *)

Lemma for_each_app {St X : Type} (body : St -> X -> result St) xs ys s :
  for_each body (xs ++ ys) s = (s' ← for_each body xs s; for_each body ys s').
Proof.
  revert s. induction xs as [|x xs IH]; intros s; simpl; [reflexivity|].
  destruct (body s x) as [s'|e]; simpl; [apply IH | reflexivity].
Qed.

Lemma for_each_ext {St X : Type} (body body' : St -> X -> result St) xs s :
  (forall s x, x ∈ xs -> body s x = body' s x) ->
  for_each body xs s = for_each body' xs s.
Proof.
  revert s. induction xs as [|x xs IH]; intros s H; simpl; [reflexivity|].
  rewrite (H s x) by left. destruct (body' s x) as [s'|e]; simpl; [|reflexivity].
  apply IH. intros s1 y Hy. apply H. right. exact Hy.
Qed.

Lemma range_snoc lo hi : lo < hi -> Py.range lo hi = Py.range lo (hi - 1) ++ [hi - 1].
Proof.
  intros H. unfold Py.range.
  replace (hi - lo) with ((hi - 1 - lo) + 1) by lia.
  rewrite seqZ_app by lia. f_equal.
  replace (lo + (hi - 1 - lo)) with (hi - 1) by lia. reflexivity.
Qed.

Lemma len_app {A : Type} (l k : list A) : Py.len (l ++ k) = Py.len l + Py.len k.
Proof. unfold Py.len. rewrite length_app. lia. Qed.

Lemma getitem_app_l {A : Type} (l k : list A) i :
  0 <= i < Py.len l -> Py.getitem (l ++ k) i = Py.getitem l i.
Proof.
  intros H. rewrite !getitem_lookup by (rewrite ?len_app; unfold Py.len in *; lia).
  rewrite lookup_app_l by (unfold Py.len in H; lia). reflexivity.
Qed.

Lemma getitem_last {A : Type} (l : list A) x :
  last l = Some x -> Py.getitem l (Py.len l - 1) = Ok x.
Proof.
  intros H. apply last_Some in H as (l' & ->).
  apply getitem_Ok. exists (length l'). split.
  - rewrite position_nonneg; [f_equal|]; unfold Py.len; rewrite length_app; simpl; lia.
  - apply list_lookup_middle. reflexivity.
Qed.

Lemma getitem_snoc {A : Type} (l : list A) x : Py.getitem (l ++ [x]) (Py.len l) = Ok x.
Proof.
  rewrite getitem_lookup by (rewrite len_app; unfold Py.len; simpl; lia).
  unfold Py.len. rewrite Nat2Z.id, list_lookup_middle by reflexivity. reflexivity.
Qed.

(** X1. Within the list, reversing the same segment twice gives the path
    back: [two_opt_swap] is its own inverse. *)
Theorem two_opt_swap_involutive (path : list Z) (i j : Z) :
  0 <= i <= j -> j < Py.len path ->
  two_opt_swap (two_opt_swap path i j) i j = path.
Proof.
  intros H1 H2.
  assert (Hlen : length (two_opt_swap path i j) = length path)
    by (apply two_opt_swap_length; assumption).
  assert (Hlen' : Py.len (two_opt_swap path i j) = Py.len path)
    by (unfold Py.len; rewrite Hlen; reflexivity).
  apply list_eq. intros k.
  destruct (decide (k < length path)%nat) as [Hk|Hk].
  - replace k with (Z.to_nat (Z.of_nat k)) by lia.
    rewrite two_opt_swap_lookup by (rewrite ?Hlen'; unfold Py.len in *; lia).
    destruct ((i <=? Z.of_nat k) && (Z.of_nat k <=? j)) eqn:E.
    + rewrite two_opt_swap_lookup by (unfold Py.len in *; lia).
      replace ((i <=? i + j - Z.of_nat k) && (i + j - Z.of_nat k <=? j)) with true by lia.
      f_equal. lia.
    + rewrite two_opt_swap_lookup by (unfold Py.len in *; lia). rewrite E. reflexivity.
  - rewrite !lookup_ge_None_2; [reflexivity | lia |].
    rewrite two_opt_swap_length by (rewrite ?Hlen'; assumption). lia.
Qed.

Lemma two_opt_swap_involutive_witness :
  two_opt_swap (two_opt_swap [4; 0; 3; 1; 2] 1 3) 1 3 = [4; 0; 3; 1; 2].
Proof. apply two_opt_swap_involutive; vm_compute; [split|]; congruence. Defined.

(** X2. [two_opt_swap] raises nothing on crossed indices: for
    [0 <= j + 1 <= i <= len(path)] the middle slice is empty and the result
    is [path[:i]] followed by [path[j+1:]], which repeats the [i - (j + 1)]
    elements from [j + 1] to [i - 1]; only [i = j + 1] gives the path back. *)
Theorem two_opt_swap_crossed (path : list Z) (i j : Z) :
  0 <= j + 1 -> j + 1 <= i -> i <= Py.len path ->
  two_opt_swap path i j = take (Z.to_nat i) path ++ drop (Z.to_nat (j + 1)) path
  /\ length (two_opt_swap path i j) = (length path + Z.to_nat (i - (j + 1)))%nat.
Proof.
  intros H1 H2 H3.
  assert (two_opt_swap path i j
          = take (Z.to_nat i) path ++ drop (Z.to_nat (j + 1)) path) as Heq.
  { unfold two_opt_swap. rewrite slice_prefix, slice_suffix by lia.
    replace (Py.slice path (Some i) (Some (j + 1))) with (@nil Z); [reflexivity|].
    unfold Py.slice, Py.bound.
    destruct (Z.ltb_spec i 0); [lia|]. destruct (Z.ltb_spec (j + 1) 0); [lia|].
    rewrite !Z.min_l by lia. replace (Z.to_nat (j + 1 - i)) with 0%nat by lia.
    reflexivity. }
  split; [exact Heq|].
  rewrite Heq, length_app, length_take, length_drop. unfold Py.len in H3. lia.
Qed.

Lemma two_opt_swap_crossed_witness :
  two_opt_swap [10; 11; 12; 13; 14] 3 1 = [10; 11; 12] ++ [12; 13; 14]
  /\ length (two_opt_swap [10; 11; 12; 13; 14] 3 1) = 6%nat.
Proof. apply (two_opt_swap_crossed [10; 11; 12; 13; 14] 3 1); vm_compute; congruence. Defined.

(** X3. Appending a stop adds one edge: the length of [path + [b]] is the
    length of [path] plus the entry from the last element of [path] to [b],
    added last; it raises what either of the two raises.  This is how the
    closing edge enters the total of a tour that returns to its start. *)
Theorem calculate_path_distance_snoc (path : list Z) (a b : Z) (m : matrix) :
  last path = Some a ->
  calculate_path_distance (path ++ [b]) m =
    (total ← calculate_path_distance path m;
     d ← entry m a b;
     Ok (PrimFloat.add total d)).
Proof.
  intros Hlast. unfold calculate_path_distance.
  assert (1 <= Py.len path) as Hpos.
  { apply last_Some in Hlast as (l' & ->). rewrite len_app. unfold Py.len. simpl. lia. }
  rewrite len_app.
  replace (Py.len path + Py.len [b] - 1) with (Py.len path) by (unfold Py.len; simpl; lia).
  rewrite (range_snoc 0 (Py.len path)) by lia.
  rewrite for_each_app.
  rewrite (for_each_ext (add_edge (path ++ [b]) m) (add_edge path m)).
  - destruct (for_each (add_edge path m) _ _) as [total|e]; simpl; [|reflexivity].
    unfold add_edge, entry.
    rewrite (getitem_app_l path [b] (Py.len path - 1)) by lia.
    rewrite (getitem_last path a Hlast). simpl.
    destruct (Py.getitem m a) as [row|e]; simpl; [|reflexivity].
    replace (Py.len path - 1 + 1) with (Py.len path) by lia.
    rewrite getitem_snoc. simpl. destruct (Py.getitem row b); reflexivity.
  - intros total i Hi. apply elem_of_range in Hi. unfold add_edge.
    rewrite !getitem_app_l by lia. reflexivity.
Qed.

Lemma calculate_path_distance_snoc_witness :
  calculate_path_distance ([0; 1; 2; 3] ++ [0]) square4 = Ok 4%float.
Proof.
  rewrite (calculate_path_distance_snoc [0; 1; 2; 3] 3 0 square4) by reflexivity.
  vm_compute. reflexivity.
Defined.

(** X4. Over non-negative entries the length of a path, when it is defined,
    is a non-negative number: rounding never takes a sum of non-negative
    floats below zero or to NaN (an overflow gives the positive infinity). *)
Theorem path_distance_nonneg (path : list Z) (m : matrix) (d : float) :
  nonneg_entries m -> calculate_path_distance path m = Ok d ->
  float_le PrimFloat.zero d /\ PrimFloat.eqb d d = true.
Proof.
  intros Hm Hd. pose proof (calculate_path_distance_nonneg path m d Hm Hd) as Hnonneg.
  split; [exact Hnonneg|].
  apply nonneg_spec in Hnonneg. rewrite FloatAxioms.eqb_spec. unfold SFeqb.
  destruct (Prim2SF d) as [s|s| |s mant e]; simpl in *; try destruct s;
    try discriminate; try reflexivity.
  rewrite Z.compare_refl, Pos.compare_cont_refl. reflexivity.
Qed.

Lemma path_distance_nonneg_witness :
  float_le PrimFloat.zero 5 /\ PrimFloat.eqb 5 5 = true.
Proof.
  apply (path_distance_nonneg [0; 2; 1; 3] square4 5%float).
  - exact square4_nonneg.
  - vm_compute. reflexivity.
Defined.

(** * Further properties of the local search *)

Lemma scan_j_None p d m i jvals :
  scan_j p d m i jvals = Ok None ->
  forall j, j ∈ jvals ->
    exists d', calculate_path_distance (two_opt_swap p i j) m = Ok d' /\ ~ float_lt d' d.
Proof.
  induction jvals as [|j0 jvals IH]; simpl; intros H j Hj.
  { apply elem_of_nil in Hj. contradiction. }
  destruct (calculate_path_distance (two_opt_swap p i j0) m) as [nd|] eqn:E;
    [|discriminate]. simpl in H.
  destruct (PrimFloat.ltb nd d) eqn:Hlt; [discriminate|].
  apply elem_of_cons in Hj as [->|Hj].
  - exists nd. split; [exact E|]. unfold float_lt. congruence.
  - apply IH; assumption.
Qed.

Lemma scan_i_None p d m ivals :
  scan_i p d m ivals = Ok None ->
  forall i j, i ∈ ivals -> j ∈ Py.range (i + 1) (Py.len p - 1) ->
    exists d', calculate_path_distance (two_opt_swap p i j) m = Ok d' /\ ~ float_lt d' d.
Proof.
  induction ivals as [|i0 ivals IH]; simpl; intros H i j Hi Hj.
  { apply elem_of_nil in Hi. contradiction. }
  destruct (scan_j p d m i0 _) as [[move|]|] eqn:E; simpl in H; try discriminate.
  apply elem_of_cons in Hi as [->|Hi].
  - eapply scan_j_None; eassumption.
  - apply IH; assumption.
Qed.

(** X5. The tour returned by [two_opt_improvement] is the input rearranged:
    same elements, same multiplicities.  A permutation of [0..n-1] stays a
    permutation of [0..n-1]. *)
Theorem two_opt_improvement_permutes (fuel : nat) (path : list Z) (m : matrix)
    (out : list Z) :
  two_opt_improvement fuel path m = Some (Ok out) ->
  out ≡ₚ path /\ (forall n, path ≡ₚ seqZ 0 n -> out ≡ₚ seqZ 0 n /\ NoDup out).
Proof.
  intros Hrun.
  apply two_opt_improvement_reached in Hrun as (d0 & d & _ & Hreach & _).
  destruct Hreach as (_ & _ & Hperm & _).
  split; [exact Hperm|]. intros n Hn.
  split; [etrans; eassumption|]. rewrite Hperm, Hn. apply NoDup_seqZ.
Qed.

Lemma two_opt_improvement_permutes_witness :
  [0; 1; 2; 3] ≡ₚ [0; 2; 1; 3].
Proof.
  apply (two_opt_improvement_permutes 2 [0; 2; 1; 3] square4 [0; 1; 2; 3]).
  vm_compute. reflexivity.
Defined.

(** X6. The tour returned by [two_opt_improvement] is a local optimum of the
    2-opt neighbourhood: reversing any segment [[i, j]] with
    [1 <= i < j <= n - 2] gives a path whose length is not below the length
    of the tour. *)
Theorem two_opt_improvement_local_optimum (fuel : nat) (path : list Z) (m : matrix)
    (out : list Z) :
  two_opt_improvement fuel path m = Some (Ok out) ->
  exists d, calculate_path_distance out m = Ok d
            /\ forall i j, 1 <= i -> i < j -> j <= Py.len out - 2 ->
                 exists d', calculate_path_distance (two_opt_swap out i j) m = Ok d'
                            /\ ~ float_lt d' d.
Proof.
  intros Hrun.
  apply two_opt_improvement_reached in Hrun as (d0 & d & _ & Hreach & Hscan).
  destruct Hreach as (Hd & _). exists d. split; [exact Hd|].
  intros i j Hi Hij Hj. unfold scan in Hscan.
  apply (scan_i_None _ _ _ _ Hscan i j); apply elem_of_range; lia.
Qed.

Lemma two_opt_improvement_local_optimum_witness :
  exists d, calculate_path_distance [0; 1; 2; 3] square4 = Ok d
            /\ exists d', calculate_path_distance (two_opt_swap [0; 1; 2; 3] 1 2) square4
                          = Ok d'
                          /\ ~ float_lt d' d.
Proof.
  destruct (two_opt_improvement_local_optimum 2 [0; 2; 1; 3] square4 [0; 1; 2; 3])
    as (d & Hd & Hbest).
  - vm_compute. reflexivity.
  - exists d. split; [exact Hd|]. apply Hbest; vm_compute; congruence.
Defined.

Lemma getitem_raises {A : Type} (l : list A) i e :
  Py.getitem l i = Raise e -> e = IndexError.
Proof.
  unfold Py.getitem. destruct (Py.position _ _) as [k|]; [|congruence].
  destruct (l !! k); congruence.
Qed.

Lemma add_edge_raises path m total i e :
  add_edge path m total i = Raise e -> e = IndexError.
Proof.
  unfold add_edge.
  destruct (Py.getitem path i) as [a|] eqn:Ha; simpl;
    [|intros [= <-]; eapply getitem_raises, Ha].
  destruct (Py.getitem m a) as [row|] eqn:Hrow; simpl;
    [|intros [= <-]; eapply getitem_raises, Hrow].
  destruct (Py.getitem path (i + 1)) as [b|] eqn:Hb; simpl;
    [|intros [= <-]; eapply getitem_raises, Hb].
  destruct (Py.getitem row b) as [d|] eqn:Hd; simpl;
    [discriminate | intros [= <-]; eapply getitem_raises, Hd].
Qed.

Lemma for_each_raises {St X : Type} (body : St -> X -> result St) xs s e0 e :
  (forall s x e, body s x = Raise e -> e = e0) ->
  for_each body xs s = Raise e -> e = e0.
Proof.
  intros Hbody. revert s. induction xs as [|x xs IH]; intros s; simpl; [discriminate|].
  destruct (body s x) as [s'|e'] eqn:E; simpl.
  - apply IH.
  - intros [= <-]. eapply Hbody, E.
Qed.

(** When a loop returns, every iteration has returned. *)
Lemma for_each_Ok_steps {St X : Type} (body : St -> X -> result St) xs s r :
  for_each body xs s = Ok r ->
  forall x, x ∈ xs -> exists s1 s2, body s1 x = Ok s2.
Proof.
  revert s. induction xs as [|x0 xs IH]; intros s H x Hx.
  { apply elem_of_nil in Hx. contradiction. }
  simpl in H. destruct (body s x0) as [s'|e'] eqn:E; simpl in H; [|discriminate].
  apply elem_of_cons in Hx as [->|Hx]; [eauto|]. eapply IH; eassumption.
Qed.

Lemma getitem_Ok_inside {A : Type} (l : list A) i x :
  Py.getitem l i = Ok x -> - Py.len l <= i < Py.len l.
Proof.
  intros H. apply getitem_Ok in H as (k & Hk & _).
  apply position_Some in Hk. wrap_cases.
Qed.

Lemma add_edge_Ok_inside k m path total i total' :
  square k m -> 0 <= i < Py.len path - 1 ->
  add_edge path m total i = Ok total' ->
  exists a b, path !! Z.to_nat i = Some a /\ path !! Z.to_nat (i + 1) = Some b
              /\ - Z.of_nat k <= a < Z.of_nat k /\ - Z.of_nat k <= b < Z.of_nat k.
Proof.
  intros [Hlen Hrows] Hi. unfold add_edge.
  rewrite !getitem_lookup by lia.
  destruct (path !! Z.to_nat i) as [a|] eqn:Ha; [|discriminate]. simpl.
  destruct (Py.getitem m a) as [row|] eqn:Hrow; [|discriminate]. simpl.
  destruct (path !! Z.to_nat (i + 1)) as [b|] eqn:Hb; [|discriminate]. simpl.
  destruct (Py.getitem row b) as [d|] eqn:Hd; [|discriminate]. intros _.
  exists a, b. split; [reflexivity|]. split; [reflexivity|].
  pose proof (getitem_Ok_inside _ _ _ Hrow) as Ha'.
  pose proof (getitem_Ok_inside _ _ _ Hd) as Hb'.
  apply getitem_elem_of in Hrow. rewrite Forall_forall in Hrows.
  specialize (Hrows row Hrow). unfold Py.len in *. lia.
Qed.

(** X7. A path of two or more elements with an element that is no subscript
    of an [n] by [n] matrix (at least [n], or below [-n]) is refused:
    the first length computation of [two_opt_improvement] raises
    [IndexError] before any pass. *)
Theorem two_opt_improvement_bad_index (k : nat) (m : matrix) (path : list Z) (a : Z)
    (fuel : nat) :
  square k m -> (2 <= length path)%nat -> a ∈ path ->
  a < - Z.of_nat k \/ Z.of_nat k <= a ->
  calculate_path_distance path m = Raise IndexError
  /\ two_opt_improvement fuel path m = Some (Raise IndexError).
Proof.
  intros Hm Hlen Ha Hout.
  assert (calculate_path_distance path m = Raise IndexError) as Hcalc.
  { destruct (calculate_path_distance path m) as [d|e] eqn:E.
    - exfalso. apply list_elem_of_lookup_1 in Ha as (pos & Hpos).
      pose proof (lookup_lt_Some _ _ _ Hpos) as Hlt.
      unfold calculate_path_distance in E.
      destruct (decide (pos = 0)%nat) as [->|Hne].
      + destruct (for_each_Ok_steps _ _ _ _ E 0) as (s1 & s2 & Hstep);
          [apply elem_of_range; unfold Py.len; lia|].
        apply (add_edge_Ok_inside k) in Hstep as (x & y & Hx & _ & Hxr & _);
          [|exact Hm | unfold Py.len; lia].
        change (Z.to_nat 0) with 0%nat in Hx. rewrite Hpos in Hx.
        injection Hx as <-. lia.
      + destruct (for_each_Ok_steps _ _ _ _ E (Z.of_nat pos - 1)) as (s1 & s2 & Hstep);
          [apply elem_of_range; unfold Py.len; lia|].
        apply (add_edge_Ok_inside k) in Hstep as (x & y & _ & Hy & _ & Hyr);
          [|exact Hm | unfold Py.len; lia].
        replace (Z.to_nat (Z.of_nat pos - 1 + 1)) with pos in Hy by lia.
        rewrite Hpos in Hy. injection Hy as <-. lia.
    - f_equal. unfold calculate_path_distance in E.
      eapply for_each_raises; [|exact E]. intros s x e'. apply add_edge_raises. }
  split; [exact Hcalc|]. unfold two_opt_improvement. rewrite Hcalc. reflexivity.
Qed.

Lemma two_opt_improvement_bad_index_witness :
  calculate_path_distance [0; 4; 1] square4 = Raise IndexError
  /\ two_opt_improvement 3 [0; 4; 1] square4 = Some (Raise IndexError).
Proof.
  apply (two_opt_improvement_bad_index 4 square4 [0; 4; 1] 4 3).
  - exact square4_square.
  - simpl. lia.
  - apply list_elem_of_further, list_elem_of_here.
  - right. lia.
Defined.

(** * [solve_tsp] *)

(** On a square matrix and valid indices the search returns a tour, the
    same for every amount of fuel from [n!] on. *)
Lemma two_opt_improvement_returns n m path :
  square n m -> indices n path ->
  exists out, forall fuel, (fact (length path) <= fuel)%nat ->
                two_opt_improvement fuel path m = Some (Ok out).
Proof.
  intros Hm Hpath.
  destruct (calculate_path_distance_total n m path Hm Hpath) as (d0 & Hd0).
  destruct (improve_total n m path (fact (length path)) path d0) as (out & Hout);
    [exact Hm | exact Hpath | reflexivity | apply rank_initial, Hd0 |].
  exists out. intros fuel Hfuel. unfold two_opt_improvement. rewrite Hd0.
  eapply improve_mono; eassumption.
Qed.

Lemma getitem_0_head {A : Type} (l : list A) x : Py.getitem l 0 = Ok x -> head l = Some x.
Proof.
  intros H. apply getitem_Ok in H as (k & Hk & Hx).
  apply position_Some in Hk as [Hk _]. unfold Py.wrap in Hk. simpl in Hk.
  assert (k = 0%nat) as -> by lia. destruct l; [discriminate | exact Hx].
Qed.

Lemma head_getitem_0 {A : Type} (l : list A) x : head l = Some x -> Py.getitem l 0 = Ok x.
Proof. destruct l as [|y l]; [discriminate|]. intros [= ->]. reflexivity. Qed.

Lemma indices_seqZ k path : path ≡ₚ seqZ 0 (Z.of_nat k) -> indices k path.
Proof.
  intros H. unfold indices. rewrite H. apply Forall_forall.
  intros x Hx. apply elem_of_seqZ in Hx. lia.
Qed.

(** The tour that [solve_tsp] builds before the start index is appended. *)
Lemma solve_tsp_tour k m start :
  square k m -> finite_entries m -> 0 <= start < Z.of_nat k ->
  exists tour,
    tour ≡ₚ seqZ 0 (Z.of_nat k) /\ head tour = Some start
    /\ forall fuel return_to_start, (fact k <= fuel)%nat ->
         solve_tsp fuel m start return_to_start
         = Some (Ok (if return_to_start then tour ++ [start] else tour)).
Proof.
  intros Hm Hfin Hstart.
  destruct (greedy_tsp_accepts k m Hm Hfin start)
    as (path & Hrun & Hlen & Hhead & Htail & Hperm); [lia|].
  assert (Py.wrap (Z.of_nat k) <$> path = path) as Hid.
  { destruct path as [|a rest]; [discriminate|]. injection Hhead as ->.
    simpl in Htail. rewrite fmap_cons. f_equal; [wrap_cases|].
    clear Hrun Hlen Hperm. induction Htail as [|z rest Hz _ IH]; [reflexivity|].
    rewrite fmap_cons, IH. f_equal. wrap_cases. }
  rewrite Hid in Hperm.
  destruct (two_opt_improvement_returns k m path Hm (indices_seqZ k path Hperm))
    as (out & Hout).
  assert (two_opt_improvement (fact (length path)) path m = Some (Ok out)) as Hone
    by (apply Hout; lia).
  apply two_opt_improvement_reached in Hone as (d0 & d & _ & Hreach & _).
  destruct Hreach as (_ & _ & Hperm' & _ & Hfirst & _).
  exists out. split; [etrans; eassumption|]. split.
  - apply getitem_0_head. rewrite Hfirst. apply head_getitem_0, Hhead.
  - intros fuel rts Hfuel. unfold solve_tsp. rewrite Hrun.
    rewrite Hout by (rewrite Hlen; exact Hfuel). reflexivity.
Qed.

(** X8. On an [n] by [n] matrix of finite distances and a start index in
    [[0, n)], [solve_tsp] raises nothing: it returns a tour that visits each
    of [0..n-1] once, beginning with the start index.  With
    [return_to_start] the start index is appended to that tour, so the list
    has [n + 1] elements and begins and ends with the start index. *)
Theorem solve_tsp_returns_tour (k : nat) (m : matrix) (start : Z) :
  square k m -> finite_entries m -> 0 <= start < Z.of_nat k ->
  exists tour,
    tour ≡ₚ seqZ 0 (Z.of_nat k) /\ length tour = k /\ head tour = Some start
    /\ (forall fuel, (fact k <= fuel)%nat -> solve_tsp fuel m start false = Some (Ok tour))
    /\ (forall fuel, (fact k <= fuel)%nat ->
          solve_tsp fuel m start true = Some (Ok (tour ++ [start])))
    /\ length (tour ++ [start]) = S k
    /\ head (tour ++ [start]) = Some start
    /\ last (tour ++ [start]) = Some start.
Proof.
  intros Hm Hfin Hstart.
  destruct (solve_tsp_tour k m start Hm Hfin Hstart) as (tour & Hperm & Hhead & Hrun).
  assert (length tour = k) as Hlen.
  { rewrite Hperm, length_seqZ. lia. }
  exists tour. split; [exact Hperm|]. split; [exact Hlen|]. split; [exact Hhead|].
  split; [intros fuel Hfuel; apply (Hrun fuel false Hfuel)|].
  split; [intros fuel Hfuel; apply (Hrun fuel true Hfuel)|].
  split; [rewrite length_app; simpl; lia|].
  split; [destruct tour; [discriminate | exact Hhead] | apply last_snoc].
Qed.

Lemma solve_tsp_returns_tour_witness :
  exists tour,
    tour ≡ₚ seqZ 0 4 /\ head tour = Some 2
    /\ solve_tsp 24 square4 2 true = Some (Ok (tour ++ [2])).
Proof.
  destruct (solve_tsp_returns_tour 4 square4 2) as (tour & Hperm & _ & Hhead & _ & Hrun & _).
  - exact square4_square.
  - exact square4_finite.
  - lia.
  - exists tour. split; [exact Hperm|]. split; [exact Hhead|].
    apply Hrun. vm_compute. lia.
Defined.

(** X9. A start index that is at least [n] or below [-n] makes [solve_tsp]
    raise the [IndexError] of [greedy_tsp], with or without
    [return_to_start]; no search is made. *)
Theorem solve_tsp_rejects (fuel : nat) (m : matrix) (start : Z) (return_to_start : bool) :
  start < - Py.len m \/ Py.len m <= start ->
  solve_tsp fuel m start return_to_start = Some (Raise IndexError).
Proof.
  intros H. unfold solve_tsp. rewrite greedy_tsp_rejects by exact H. reflexivity.
Qed.

Lemma solve_tsp_rejects_witness :
  solve_tsp 0 square4 4 true = Some (Raise IndexError).
Proof. apply solve_tsp_rejects. right. vm_compute. discriminate. Defined.

(** * The start place of [main] *)

Lemma find_place_Some places s i0 i :
  find_place places s i0 = Some i ->
  exists pos p, i = i0 + Z.of_nat pos /\ places !! pos = Some p /\ name p = s
                /\ forall j q, (j < pos)%nat -> places !! j = Some q -> name q <> s.
Proof.
  revert i0. induction places as [|place rest IH]; intros i0; simpl; [discriminate|].
  destruct (String.eqb_spec (name place) s) as [Heq|Hne].
  - intros [= <-]. exists 0%nat, place. split; [lia|]. split; [reflexivity|].
    split; [exact Heq|]. intros j q Hj. lia.
  - intros H. destruct (IH _ H) as (pos & p & -> & Hp & Hname & Hfirst).
    exists (S pos), p. split; [lia|]. split; [exact Hp|]. split; [exact Hname|].
    intros [|j] q Hj Hq; simpl in Hq.
    + injection Hq as <-. exact Hne.
    + apply (Hfirst j q); [lia | exact Hq].
Qed.

Lemma find_place_None places s i0 :
  find_place places s i0 = None <-> forall p, p ∈ places -> name p <> s.
Proof.
  revert i0. induction places as [|place rest IH]; intros i0; simpl.
  - split; [|reflexivity]. intros _ p Hp. apply elem_of_nil in Hp. contradiction.
  - destruct (String.eqb_spec (name place) s) as [Heq|Hne].
    + split; [discriminate|]. intros H. exfalso. apply (H place); [left | exact Heq].
    + rewrite IH. split.
      * intros H p Hp. apply elem_of_cons in Hp as [->|Hp]; auto.
      * intros H p Hp. apply H. right. exact Hp.
Qed.

(** X10. The start index that [main] computes.  Without a name, or with
    the empty name, it is [0] and nothing is printed.  With a non-empty name
    that no place has it is [0] and the warning is printed; the warning is
    printed in no other case.  With a non-empty name that some place has it
    is the index of the first place with that name.  Hence it is a valid
    index whenever there is a place at all, and the [IndexError] of
    [greedy_tsp] cannot come from it. *)
Theorem find_start_index_valid (places : list Place) (start : option string)
    (i : Z) (warned : bool) :
  find_start_index places start = (i, warned) ->
  (places <> [] -> 0 <= i < Py.len places)
  /\ (start = None \/ start = Some EmptyString -> i = 0 /\ warned = false)
  /\ (forall s, start = Some s -> s <> EmptyString ->
        (forall p, p ∈ places -> name p <> s) -> i = 0 /\ warned = true)
  /\ (warned = true <->
      exists s, start = Some s /\ s <> EmptyString /\ forall p, p ∈ places -> name p <> s)
  /\ (forall s p, start = Some s -> s <> EmptyString -> p ∈ places -> name p = s ->
        warned = false
        /\ 0 <= i
        /\ exists q, places !! Z.to_nat i = Some q /\ name q = s
                     /\ forall j r, (j < Z.to_nat i)%nat -> places !! j = Some r ->
                          name r <> s).
Proof.
  unfold find_start_index. intros H.
  assert (places <> [] -> 0 <= 0 < Py.len places) as Hzero.
  { destruct places; [congruence|]. intros _. unfold Py.len. simpl. lia. }
  destruct start as [s|].
  - destruct (String.eqb_spec s EmptyString) as [->|Hs].
    + injection H as <- <-. split; [exact Hzero|]. split; [auto|]. split; [|split].
      * intros s [= <-] Hne. congruence.
      * split; [discriminate|]. intros (s & [= <-] & Hne & _). congruence.
      * intros s p [= <-] Hne. congruence.
    + destruct (find_place places s 0) as [i'|] eqn:E.
      * injection H as <- <-.
        destruct (find_place_Some _ _ _ _ E) as (pos & p & -> & Hp & Hname & Hfirst).
        rewrite Z.add_0_l, Nat2Z.id. split; [|split; [|split; [|split]]].
        -- intros _. apply lookup_lt_Some in Hp. unfold Py.len. lia.
        -- intros [[=]|[= ->]]. congruence.
        -- intros s' [= <-] _ Hnone. exfalso.
           eapply Hnone; [eapply list_elem_of_lookup_2, Hp | exact Hname].
        -- split; [discriminate|]. intros (s' & [= <-] & _ & Hnone).
           exfalso. eapply Hnone; [eapply list_elem_of_lookup_2, Hp | exact Hname].
        -- intros s' p' [= <-] _ _ _. split; [reflexivity|]. split; [lia|]. eauto.
      * injection H as <- <-. rewrite find_place_None in E.
        split; [exact Hzero|]. split; [|split; [|split]].
        -- intros [[=]|[= ->]]. congruence.
        -- intros s' [= <-] _ _. auto.
        -- split; [|reflexivity]. intros _. exists s. auto.
        -- intros s' p [= <-] _ Hp Hname. exfalso. exact (E p Hp Hname).
  - injection H as <- <-. split; [exact Hzero|]. split; [auto|]. split; [|split].
    + intros s [=].
    + split; [discriminate|]. intros (s & [=] & _).
    + intros s p [=].
Qed.

Lemma find_start_index_valid_witness :
  (0 <= 1 < Py.len three_places
   /\ exists q, three_places !! Z.to_nat 1 = Some q /\ name q = "north"%string)
  /\ (find_start_index three_places (Some "south"%string)).1 = 0
  /\ (find_start_index three_places (Some "south"%string)).2 = true
  /\ (find_start_index three_places None).1 = 0
  /\ (find_start_index three_places (Some EmptyString)).2 = false.
Proof.
  split; [|split; [|split; [|split]]].
  - destruct (find_start_index_valid three_places (Some "north"%string) 1 false)
      as (Hrange & _ & _ & _ & Hfirst).
    + vm_compute. reflexivity.
    + split; [apply Hrange; discriminate|].
      destruct (Hfirst "north"%string {| name := "north"; lat := 2; lon := 0 |})
        as (_ & _ & q & Hq & Hname & _).
      * reflexivity.
      * discriminate.
      * apply list_elem_of_further, list_elem_of_further, list_elem_of_here.
      * reflexivity.
      * eauto.
  - destruct (find_start_index three_places (Some "south"%string)) as [i w] eqn:E.
    destruct (find_start_index_valid three_places (Some "south"%string) i w E)
      as (_ & _ & Habsent & _).
    apply (Habsent "south"%string); [reflexivity | discriminate|].
    intros p Hp. repeat (apply elem_of_cons in Hp as [->|Hp]; [discriminate|]).
    apply elem_of_nil in Hp. contradiction.
  - destruct (find_start_index three_places (Some "south"%string)) as [i w] eqn:E.
    destruct (find_start_index_valid three_places (Some "south"%string) i w E)
      as (_ & _ & Habsent & _).
    apply (Habsent "south"%string); [reflexivity | discriminate|].
    intros p Hp. repeat (apply elem_of_cons in Hp as [->|Hp]; [discriminate|]).
    apply elem_of_nil in Hp. contradiction.
  - destruct (find_start_index three_places None) as [i w] eqn:E.
    destruct (find_start_index_valid three_places None i w E) as (_ & Hmissing & _).
    apply Hmissing. left. reflexivity.
  - destruct (find_start_index three_places (Some EmptyString)) as [i w] eqn:E.
    destruct (find_start_index_valid three_places (Some EmptyString) i w E)
      as (_ & Hmissing & _).
    apply Hmissing. right. reflexivity.
Defined.

(** * [create_geojson] *)

Lemma coordinates_Ok places path :
  Forall (fun i => - Py.len places <= i < Py.len places) path ->
  exists cs, coordinates places path = Ok cs
             /\ Forall2 (fun i c => exists p, Py.getitem places i = Ok p
                                             /\ c = [lon p; lat p]) path cs.
Proof.
  induction 1 as [|i rest Hi _ (cs & Hcs & Hall)]; simpl.
  - exists []. split; [reflexivity | constructor].
  - destruct (getitem_inside places i Hi) as (p & Hp). rewrite Hp. simpl.
    rewrite Hcs. simpl. eexists. split; [reflexivity|].
    constructor; [eauto | exact Hall].
Qed.

Lemma coordinates_raises places path :
  Exists (fun i => i < - Py.len places \/ Py.len places <= i) path ->
  coordinates places path = Raise IndexError.
Proof.
  induction 1 as [i rest Hi|i rest _ IH]; simpl.
  - unfold Py.getitem. rewrite position_None by exact Hi. reflexivity.
  - destruct (Py.getitem places i) as [p|e] eqn:E; simpl.
    + rewrite IH. reflexivity.
    + f_equal. eapply getitem_raises, E.
Qed.

(** X11. [create_geojson] hands to the file a FeatureCollection of one
    LineString with one position per element of the path, in the order of
    the path, each the pair longitude then latitude of the place the element
    denotes; it returns the file name it was given when the file was
    written, and raises what opening or writing the file raises.  An element
    that is no subscript of [places] makes it raise [IndexError] before the
    file is opened, whatever the file name. *)
Theorem create_geojson_positions (dump_to_file : string -> json -> result unit)
    (places : list Place) (path : list Z) (output_file : string) :
  (Forall (fun i => - Py.len places <= i < Py.len places) path ->
   exists cs,
     coordinates places path = Ok cs
     /\ length cs = length path
     /\ (forall k i, path !! k = Some i ->
           exists p, Py.getitem places i = Ok p /\ cs !! k = Some [lon p; lat p])
     /\ create_geojson dump_to_file places path output_file
        = (_ ← dump_to_file output_file (line_string_document cs); Ok output_file))
  /\ (Exists (fun i => i < - Py.len places \/ Py.len places <= i) path ->
      create_geojson dump_to_file places path output_file = Raise IndexError).
Proof.
  split.
  - intros Hpath. destruct (coordinates_Ok places path Hpath) as (cs & Hcs & Hall).
    exists cs. split; [exact Hcs|].
    split; [symmetry; eapply Forall2_length, Hall|]. split.
    + intros k i Hk.
      destruct (Forall2_lookup_l _ _ _ _ _ Hall Hk) as (c & Hc & p & Hp & ->). eauto.
    + unfold create_geojson. rewrite Hcs. reflexivity.
  - intros Hbad. unfold create_geojson. rewrite coordinates_raises by exact Hbad.
    reflexivity.
Qed.

Lemma create_geojson_positions_witness :
  (exists cs, coordinates three_places [0; 2; 1; 0] = Ok cs /\ length cs = 4%nat
              /\ create_geojson (fun f _ => if String.eqb f EmptyString
                                            then Raise OSError else Ok ())
                   three_places [0; 2; 1; 0] "route.geojson"
                 = Ok "route.geojson"%string
              /\ create_geojson (fun f _ => if String.eqb f EmptyString
                                            then Raise OSError else Ok ())
                   three_places [0; 2; 1; 0] EmptyString
                 = Raise OSError)
  /\ create_geojson (fun _ _ => Ok ()) three_places [0; 3] "route.geojson"
     = Raise IndexError.
Proof.
  split.
  - destruct (create_geojson_positions
                (fun f _ => if String.eqb f EmptyString then Raise OSError else Ok ())
                three_places [0; 2; 1; 0] "route.geojson") as [Hgood _].
    destruct (create_geojson_positions
                (fun f _ => if String.eqb f EmptyString then Raise OSError else Ok ())
                three_places [0; 2; 1; 0] EmptyString) as [Hempty _].
    assert (Forall (fun i => - Py.len three_places <= i < Py.len three_places)
              [0; 2; 1; 0]) as Hpath
      by (unfold Py.len; simpl; repeat (constructor; [lia|]); constructor).
    destruct (Hgood Hpath) as (cs & Hcs & Hlen & _ & Hwrite).
    destruct (Hempty Hpath) as (cs' & Hcs' & _ & _ & Hwrite').
    exists cs. split; [exact Hcs|]. split; [exact Hlen|]. split.
    + rewrite Hwrite. reflexivity.
    + rewrite Hwrite'. reflexivity.
  - destruct (create_geojson_positions (fun _ _ => Ok ()) three_places [0; 3]
                "route.geojson") as [_ Hbad].
    apply Hbad. apply Exists_cons_tl, Exists_cons_hd. right. vm_compute. discriminate.
Defined.

(** * [create_distance_matrix] *)

Section MatrixFacts.

Variable haversine : float -> float -> float -> float -> result float.
Variable places : list Place.

(** [haversine] returns for every two different places. *)
Hypothesis haversine_returns :
  forall a b p q, a <> b -> places !! a = Some p -> places !! b = Some q ->
    exists d, haversine (lat p) (lon p) (lat q) (lon q) = Ok d.

Lemma getitem_of_nat {A : Type} (l : list A) (a : nat) x :
  l !! a = Some x -> Py.getitem l (Z.of_nat a) = Ok x.
Proof.
  intros H. pose proof (lookup_lt_Some _ _ _ H) as Hlt.
  rewrite getitem_lookup by (unfold Py.len; lia). rewrite Nat2Z.id, H. reflexivity.
Qed.

Lemma setitem_of_nat {A : Type} (l : list A) (a : nat) v :
  (a < length l)%nat -> Py.setitem l (Z.of_nat a) v = Ok (<[a:=v]> l).
Proof.
  intros H. unfold Py.setitem. rewrite position_nonneg by (unfold Py.len; lia).
  rewrite Nat2Z.id. reflexivity.
Qed.

Lemma fill_entry_step i j mat :
  (i < length places)%nat -> (j < length places)%nat ->
  filled haversine places i j mat ->
  exists mat', fill_entry haversine places (Z.of_nat i) mat (Z.of_nat j) = Ok mat'
               /\ filled haversine places i (S j) mat'.
Proof.
  intros Hi Hj ([Hlen Hrows] & Hfill). unfold fill_entry.
  destruct (lookup_lt_is_Some_2 places i Hi) as [p Hp].
  destruct (lookup_lt_is_Some_2 places j Hj) as [q Hq].
  case_bool_decide as Hij.
  - assert (i <> j) as Hne by lia.
    rewrite (getitem_of_nat _ _ _ Hp), (getitem_of_nat _ _ _ Hq). simpl.
    destruct (haversine_returns i j p q Hne Hp Hq) as (d & Hd). rewrite Hd. simpl.
    destruct (Hfill i j p q Hp Hq) as (row & v & Hrow & Hv & _).
    assert (length row = length places) as Hrowlen.
    { rewrite Forall_forall in Hrows. eapply Hrows, list_elem_of_lookup_2, Hrow. }
    unfold set_entry. rewrite (getitem_of_nat _ _ _ Hrow). simpl.
    rewrite setitem_of_nat by lia. simpl. rewrite setitem_of_nat by lia.
    eexists. split; [reflexivity|]. split.
    + split; [rewrite length_insert; exact Hlen|].
      apply Forall_insert; [exact Hrows | rewrite length_insert; exact Hrowlen].
    + intros a b p' q' Ha Hb.
      destruct (Hfill a b p' q' Ha Hb) as (row' & v' & Hrow' & Hv' & Hdone & Hzero).
      destruct (decide (a = i)) as [->|Hai].
      * assert (row' = row) as -> by congruence. assert (p' = p) as -> by congruence.
        assert (<[i:=<[j:=d]> row]> mat !! i = Some (<[j:=d]> row)) as Hmat
          by (apply list_lookup_insert_eq; lia).
        exists (<[j:=d]> row).
        destruct (decide (b = j)) as [->|Hbj].
        -- assert (q' = q) as -> by congruence.
           exists d. split; [exact Hmat|].
           split; [apply list_lookup_insert_eq; lia|]. split; [auto|].
           intros Hnot. exfalso. apply Hnot. lia.
        -- exists v'. split; [exact Hmat|].
           split; [rewrite list_lookup_insert_ne by lia; exact Hv'|].
           split; [intros H; apply Hdone; lia | intros H; apply Hzero; lia].
      * exists row', v'.
        split; [etrans; [apply list_lookup_insert_ne; lia | exact Hrow']|].
        split; [exact Hv'|].
        split; [intros H; apply Hdone; lia | intros H; apply Hzero; lia].
  - assert (i = j) as <- by lia.
    exists mat. split; [reflexivity|]. split; [split; assumption|].
    intros a b p' q' Ha Hb.
    destruct (Hfill a b p' q' Ha Hb) as (row' & v' & Hrow' & Hv' & Hdone & Hzero).
    exists row', v'. split; [exact Hrow'|]. split; [exact Hv'|].
    split; [intros H; apply Hdone; lia | intros H; apply Hzero; lia].
Qed.

Lemma fill_row_step i mat :
  (i < length places)%nat -> filled haversine places i 0 mat ->
  exists mat', fill_row haversine places (Py.len places) mat (Z.of_nat i) = Ok mat'
               /\ filled haversine places (S i) 0 mat'.
Proof.
  intros Hi Hinv. unfold fill_row.
  destruct (for_each_indexed (fun j mat => filled haversine places i j mat)
              (fill_entry haversine places (Z.of_nat i)) (Py.range 0 (Py.len places)) mat)
    as (mat' & Hrun & Hsq & Hfill).
  - intros j x mat0 Hx Hinv0. apply lookup_range in Hx as [-> Hx].
    rewrite Z.add_0_l. apply fill_entry_step; [exact Hi | unfold Py.len in Hx; lia | exact Hinv0].
  - exact Hinv.
  - exists mat'. split; [exact Hrun|]. split; [exact Hsq|].
    rewrite length_range in Hfill. unfold Py.len in Hfill.
    intros a b p q Ha Hb.
    destruct (Hfill a b p q Ha Hb) as (row & v & Hrow & Hv & Hdone & Hzero).
    pose proof (lookup_lt_Some _ _ _ Hb) as Hblt.
    exists row, v. split; [exact Hrow|]. split; [exact Hv|].
    split; [intros H; apply Hdone; lia | intros H; apply Hzero; lia].
Qed.

Lemma create_distance_matrix_filled :
  exists m, create_distance_matrix haversine places = Ok m
            /\ filled haversine places (length places) 0 m.
Proof.
  unfold create_distance_matrix.
  destruct (for_each_indexed (fun i mat => filled haversine places i 0 mat)
              (fill_row haversine places (Py.len places)) (Py.range 0 (Py.len places))
              (replicate (Z.to_nat (Py.len places))
                 (replicate (Z.to_nat (Py.len places)) PrimFloat.zero)))
    as (m & Hrun & Hinv).
  - intros i x mat Hx Hinv. apply lookup_range in Hx as [-> Hx].
    rewrite Z.add_0_l. apply fill_row_step; [unfold Py.len in Hx; lia | exact Hinv].
  - unfold Py.len. rewrite Nat2Z.id. split.
    + split; [apply length_replicate|].
      apply Forall_replicate. apply length_replicate.
    + intros a b p q Ha Hb.
      apply lookup_lt_Some in Ha. apply lookup_lt_Some in Hb.
      exists (replicate (length places) PrimFloat.zero), PrimFloat.zero.
      split; [apply lookup_replicate_2; lia|].
      split; [apply lookup_replicate_2; lia|].
      split; [intros H; lia | reflexivity].
  - rewrite length_range in Hinv. unfold Py.len in Hinv.
    replace (Z.to_nat (Z.of_nat (length places) - 0)) with (length places) in Hinv by lia.
    eauto.
Qed.

(** The matrix built: square, zero on the diagonal, and off the diagonal
    what [haversine] returned for the two places. *)
Lemma create_distance_matrix_entries :
  exists m, create_distance_matrix haversine places = Ok m
            /\ square (length places) m
            /\ forall a b p q, places !! a = Some p -> places !! b = Some q ->
                 entry m (Z.of_nat a) (Z.of_nat b)
                 = if decide (a = b) then Ok PrimFloat.zero
                   else haversine (lat p) (lon p) (lat q) (lon q).
Proof.
  destruct create_distance_matrix_filled as (m & Hrun & Hsq & Hfill).
  exists m. split; [exact Hrun|]. split; [exact Hsq|].
  intros a b p q Ha Hb.
  destruct (Hfill a b p q Ha Hb) as (row & v & Hrow & Hv & Hdone & Hzero).
  unfold entry. rewrite (getitem_of_nat _ _ _ Hrow). simpl.
  rewrite (getitem_of_nat _ _ _ Hv).
  apply lookup_lt_Some in Ha.
  destruct (decide (a = b)) as [Hab|Hab].
  - rewrite Hzero by lia. reflexivity.
  - rewrite Hdone by lia. reflexivity.
Qed.

End MatrixFacts.

(** X12. When [haversine] returns for every two different places,
    [create_distance_matrix] returns an [n] by [n] matrix for the [n]
    places, with zero on the diagonal and, off the diagonal, the distance
    that [haversine] returned for the places of the row and of the column.
    In particular no call is made for fewer than two places. *)
Theorem create_distance_matrix_correct
    (haversine : float -> float -> float -> float -> result float)
    (places : list Place) :
  (forall a b p q, a <> b -> places !! a = Some p -> places !! b = Some q ->
     exists d, haversine (lat p) (lon p) (lat q) (lon q) = Ok d) ->
  exists m, create_distance_matrix haversine places = Ok m
            /\ square (length places) m
            /\ (forall a p, places !! a = Some p ->
                  entry m (Z.of_nat a) (Z.of_nat a) = Ok PrimFloat.zero)
            /\ (forall a b p q, a <> b -> places !! a = Some p -> places !! b = Some q ->
                  entry m (Z.of_nat a) (Z.of_nat b)
                  = haversine (lat p) (lon p) (lat q) (lon q)).
Proof.
  intros Hhav.
  destruct (create_distance_matrix_entries haversine places Hhav) as (m & Hrun & Hsq & Hent).
  exists m. split; [exact Hrun|]. split; [exact Hsq|]. split.
  - intros a p Ha. rewrite (Hent a a p p Ha Ha). rewrite decide_True by reflexivity.
    reflexivity.
  - intros a b p q Hne Ha Hb. rewrite (Hent a b p q Ha Hb).
    rewrite decide_False by exact Hne. reflexivity.
Qed.

Lemma create_distance_matrix_correct_witness :
  exists m, create_distance_matrix (fun la _ la' _ => Ok (PrimFloat.abs (la - la')))
              three_places = Ok m
            /\ square 3 m
            /\ entry m 1 1 = Ok PrimFloat.zero
            /\ entry m 0 2 = Ok 2%float.
Proof.
  destruct (create_distance_matrix_correct
              (fun la _ la' _ => Ok (PrimFloat.abs (la - la'))) three_places)
    as (m & Hrun & Hsq & Hdiag & Hoff).
  - intros a b p q _ _ _. eexists. reflexivity.
  - exists m. split; [exact Hrun|]. split; [exact Hsq|]. split.
    + apply (Hdiag 1%nat {| name := "north"; lat := 1; lon := 0 |}). reflexivity.
    + etrans.
      * apply (Hoff 0%nat 2%nat {| name := "depot"; lat := 0; lon := 0 |}
                 {| name := "north"; lat := 2; lon := 0 |});
          [discriminate | reflexivity | reflexivity].
      * vm_compute. reflexivity.
Defined.

(** * The nearest neighbour *)

Lemma SFcompare_Lt_of_not_Lt x y z w :
  SFcompare x y = Some Lt -> SFcompare z y <> Some Lt -> SFcompare z w = Some Lt ->
  SFcompare x z = Some Lt.
Proof.
  intros Hxy Hzy Hzw.
  destruct z as [sz|sz| |sz mz ez]; [| | destruct w; discriminate |];
    destruct x as [sx|sx| |sx mx ex], y as [sy|sy| |sy my ey];
    simpl in *; try discriminate; try (destruct sx); try (destruct sy); try (destruct sz);
    try discriminate; try reflexivity; try congruence.
  all: destruct (Z.compare_spec ex ey), (Z.compare_spec ez ey), (Z.compare_spec ex ez);
    try discriminate; try reflexivity; try congruence; try lia; subst.
  all: change (Pos.compare_cont Eq ?a ?b) with (Pos.compare a b) in *.
  all: destruct (Pos.compare_spec mx my), (Pos.compare_spec mz my), (Pos.compare_spec mx mz);
    simpl in *; try discriminate; try reflexivity; try congruence; try lia.
Qed.

(** [x < y], not [z < y] and [z] a number (it is below some [w]) give
    [x < z]. *)
Lemma float_lt_of_not_lt x y z w :
  float_lt x y -> ~ float_lt z y -> float_lt z w -> float_lt x z.
Proof.
  unfold float_lt. rewrite !ltb_Lt. apply SFcompare_Lt_of_not_Lt.
Qed.

Section GreedyNearest.

Variables (k : nat) (m : matrix).
Hypothesis Hsquare : square k m.
Hypothesis Hfinite : finite_entries m.

Local Abbreviation n := (Z.of_nat k).

(** The candidate scan takes, among the places not visited, the first one
    at the least distance from the current place. *)
Lemma consider_loop_nearest visited current :
  length visited = k -> - n <= current < n ->
  (exists u, visited !! u = Some false) ->
  exists next dn,
    for_each (consider m visited current) (Py.range 0 n) (None, PrimFloat.infinity)
      = Ok (Some next, dn)
    /\ 0 <= next < n /\ visited !! Z.to_nat next = Some false
    /\ entry m current next = Ok dn
    /\ forall c, 0 <= c < n -> visited !! Z.to_nat c = Some false ->
         exists dc, entry m current c = Ok dc
                    /\ ~ float_lt dc dn /\ (c < next -> float_lt dn dc).
Proof.
  intros Hlen Hcur (u & Hu).
  set (I := fun (j : nat) (c : choice) =>
    (c = (None, PrimFloat.infinity)
     /\ forall v, (v < j)%nat -> visited !! v <> Some false)
    \/ exists x dx,
         c = (Some (Z.of_nat x), dx) /\ (x < j)%nat /\ visited !! x = Some false
         /\ entry m current (Z.of_nat x) = Ok dx
         /\ forall v, (v < j)%nat -> visited !! v = Some false ->
              exists dv, entry m current (Z.of_nat v) = Ok dv
                         /\ ~ float_lt dv dx /\ ((v < x)%nat -> float_lt dx dv)).
  destruct (for_each_indexed I (consider m visited current) (Py.range 0 n)
              (None, PrimFloat.infinity)) as (c & Hc & Hfinal).
  - intros j x c Hx Hinv. apply lookup_range in Hx as [-> Hj].
    rewrite Z.add_0_l in *. unfold consider.
    destruct (getitem_nonneg visited (Z.of_nat j)) as (seen & Hseen & ->);
      [unfold Py.len; lia|]. rewrite Nat2Z.id in Hseen. simpl.
    destruct seen.
    + exists c. split; [reflexivity|].
      destruct Hinv as [[-> Hnone]|(x & dx & -> & Hxj & Hfalse & Hdx & Hall)].
      * left. split; [reflexivity|]. intros v Hv.
        destruct (decide (v = j)) as [->|]; [congruence | apply Hnone; lia].
      * right. exists x, dx. split; [reflexivity|]. split; [lia|].
        split; [exact Hfalse|]. split; [exact Hdx|]. intros v Hv Hvfalse.
        destruct (decide (v = j)) as [->|]; [congruence | apply Hall; [lia | exact Hvfalse]].
    + destruct (entry_finite k m Hsquare Hfinite current (Z.of_nat j))
        as (d & Hd & Hdfin); [exact Hcur | lia|].
      rewrite Hd. simpl.
      destruct Hinv as [[-> Hnone]|(x & dx & -> & Hxj & Hfalse & Hdx & Hall)].
      * simpl. unfold float_lt in Hdfin. rewrite Hdfin.
        eexists. split; [reflexivity|]. right. exists j, d.
        split; [reflexivity|]. split; [lia|]. split; [exact Hseen|]. split; [exact Hd|].
        intros v Hv Hvfalse. destruct (decide (v = j)) as [->|Hne].
        -- exists d. split; [exact Hd|]. split; [apply float_lt_irrefl | lia].
        -- exfalso. apply (Hnone v); [lia | exact Hvfalse].
      * simpl. destruct (PrimFloat.ltb d dx) eqn:Hlt.
        -- eexists. split; [reflexivity|]. right. exists j, d.
           split; [reflexivity|]. split; [lia|]. split; [exact Hseen|]. split; [exact Hd|].
           intros v Hv Hvfalse. destruct (decide (v = j)) as [->|Hne].
           ++ exists d. split; [exact Hd|]. split; [apply float_lt_irrefl | lia].
           ++ destruct (Hall v) as (dv & Hdv & Hnot & _); [lia | exact Hvfalse|].
              exists dv. split; [exact Hdv|]. split.
              ** intros Hdvd. apply Hnot. eapply float_lt_trans; [exact Hdvd | exact Hlt].
              ** intros _.
                 destruct (entry_finite k m Hsquare Hfinite current (Z.of_nat v))
                   as (dv' & Hdv' & Hfin);
                   [exact Hcur | apply lookup_lt_Some in Hvfalse; lia|].
                 assert (dv' = dv) as -> by congruence.
                 eapply float_lt_of_not_lt; [exact Hlt | exact Hnot | exact Hfin].
        -- exists (Some (Z.of_nat x), dx). split; [reflexivity|]. right. exists x, dx.
           split; [reflexivity|]. split; [lia|]. split; [exact Hfalse|]. split; [exact Hdx|].
           intros v Hv Hvfalse. destruct (decide (v = j)) as [->|Hne].
           ++ exists d. split; [exact Hd|].
              split; [unfold float_lt; congruence | lia].
           ++ apply Hall; [lia | exact Hvfalse].
  - left. split; [reflexivity|]. intros v Hv. lia.
  - rewrite length_range in Hfinal. replace (Z.to_nat (n - 0)) with k in Hfinal by lia.
    pose proof (lookup_lt_Some _ _ _ Hu) as Hult.
    destruct Hfinal as [[_ Hnone]|(x & dx & -> & Hxk & Hfalse & Hdx & Hall)].
    { exfalso. apply (Hnone u); [lia | exact Hu]. }
    exists (Z.of_nat x), dx. split; [exact Hc|]. split; [lia|].
    rewrite Nat2Z.id. split; [exact Hfalse|]. split; [exact Hdx|].
    intros c Hcr Hcfalse.
    destruct (Hall (Z.to_nat c)) as (dc & Hdc & Hnot & Hfirst); [lia | exact Hcfalse|].
    rewrite Z2Nat.id in Hdc by lia.
    exists dc. split; [exact Hdc|]. split; [exact Hnot|]. intros Hlt. apply Hfirst. lia.
Qed.

Lemma getitem_minus1_last {A : Type} (l : list A) x :
  Py.getitem l (-1) = Ok x -> last l = Some x.
Proof.
  intros H. apply getitem_Ok in H as (pos & Hpos & Hx).
  apply position_Some in Hpos as [Hpos _]. unfold Py.wrap, Py.len in Hpos. simpl in Hpos.
  rewrite last_lookup. replace (pred (length l)) with pos by lia. exact Hx.
Qed.

Lemma visiting_elements start j st y :
  0 <= start < n -> visiting k start j st -> y ∈ st.1 -> 0 <= y < n.
Proof.
  intros Hstart (_ & _ & Hhead & Htail & _) Hy.
  destruct st as [[|a rest] visited]; simpl in *; [discriminate|].
  injection Hhead as ->. apply elem_of_cons in Hy as [->|Hy]; [exact Hstart|].
  rewrite Forall_forall in Htail. apply Htail, Hy.
Qed.

(** A place that is not on the path is not marked. *)
Lemma visiting_unmarked start j st c :
  0 <= start < n -> visiting k start j st -> 0 <= c < n -> c ∉ st.1 ->
  st.2 !! Z.to_nat c = Some false.
Proof.
  intros Hstart Hinv Hc Hnotin.
  pose proof Hinv as (Hlen & _ & _ & _ & _ & Hvis).
  destruct (lookup_lt_is_Some_2 st.2 (Z.to_nat c)) as [b Hb]; [lia|].
  destruct b; [|exact Hb]. exfalso. apply Hnotin.
  apply Hvis in Hb; [|lia]. rewrite Z2Nat.id in Hb by lia.
  apply list_elem_of_fmap in Hb as (y & Hcy & Hy).
  pose proof (visiting_elements start j st y Hstart Hinv Hy) as Hyr.
  replace c with y; [exact Hy|]. rewrite Hcy. wrap_cases.
Qed.

(** One iteration of the loop of [greedy_tsp] appends a nearest place. *)
Lemma visit_next_nearest start j st x st' :
  0 <= start < n -> visiting k start j st -> (S j < k)%nat ->
  nearest_neighbour m k st.1 -> visit_next m n st x = Ok st' ->
  nearest_neighbour m k st'.1.
Proof.
  intros Hstart Hinv Hj Hnear Hrun.
  destruct (unvisited_exists k start j st Hinv Hj) as (u & Hu).
  pose proof (visiting_elements start j st) as Helems.
  pose proof (visiting_unmarked start j st) as Hunmarked.
  pose proof Hinv as (Hlen & _).
  destruct st as [path visited]. simpl in *. unfold visit_next in Hrun.
  destruct (Py.getitem path (-1)) as [current|] eqn:Hcurrent; [|discriminate].
  simpl in Hrun.
  assert (0 <= current < n) as Hcur.
  { apply (Helems current Hstart Hinv). eapply getitem_elem_of, Hcurrent. }
  apply getitem_minus1_last in Hcurrent.
  destruct (consider_loop_nearest visited current Hlen) as
    (next & dn & Hloop & Hnext & Hfalse & Hdn & Hbest); [lia | eauto |].
  rewrite Hloop in Hrun. simpl in Hrun. unfold Py.setitem in Hrun.
  rewrite position_nonneg in Hrun by (unfold Py.len; lia). simpl in Hrun.
  injection Hrun as <-. simpl.
  intros t prev nxt Ht HSt.
  apply lookup_app_Some in HSt as [HSt|[Hge HSt]].
  - pose proof (lookup_lt_Some _ _ _ HSt) as Hlt.
    rewrite lookup_app_l in Ht by lia.
    destruct (Hnear t prev nxt Ht HSt) as (d & Hd & Hall).
    exists d. split; [exact Hd|]. intros c Hc Hnotin. apply Hall; [exact Hc|].
    rewrite take_app_le in Hnotin by lia. exact Hnotin.
  - assert (S t = length path) as Hlast.
    { apply lookup_lt_Some in HSt. simpl in HSt. lia. }
    replace (S t - length path)%nat with 0%nat in HSt by lia.
    injection HSt as <-.
    rewrite lookup_app_l in Ht by lia.
    rewrite last_lookup in Hcurrent. replace (pred (length path)) with t in Hcurrent by lia.
    assert (prev = current) as -> by congruence.
    exists dn. split; [exact Hdn|]. intros c Hc Hnotin.
    rewrite Hlast, take_app_le, take_ge in Hnotin by lia.
    apply Hbest; [exact Hc|]. apply (Hunmarked c Hstart Hinv Hc Hnotin).
Qed.

(** The first state of the loop of [greedy_tsp]. *)
Lemma visiting_start start :
  - n <= start < n ->
  visiting k start 0 ([start], <[Z.to_nat (Py.wrap n start):=true]> (replicate k false)).
Proof.
  intros Hstart. set (pos := Z.to_nat (Py.wrap n start)).
  assert (0 <= Py.wrap n start < n) as Hwrap by wrap_cases.
  unfold visiting. simpl.
  split; [rewrite length_insert, length_replicate; reflexivity|].
  split; [reflexivity|]. split; [reflexivity|]. split; [constructor|].
  split; [apply NoDup_singleton|].
  intros v Hv. rewrite list_elem_of_singleton.
  destruct (decide (pos = v)) as [<-|Hne].
  - rewrite list_lookup_insert_eq by (rewrite length_replicate; lia).
    split; [intros _; unfold pos; lia | reflexivity].
  - rewrite list_lookup_insert_ne by exact Hne.
    rewrite lookup_replicate_2 by exact Hv. split; [discriminate|].
    intros H. exfalso. apply Hne. unfold pos. lia.
Qed.

(** The path of [greedy_tsp] is built by nearest neighbour. *)
Lemma greedy_tsp_nearest start :
  0 <= start < n ->
  exists path, greedy_tsp m start = Ok path /\ nearest_neighbour m k path.
Proof.
  intros Hstart. unfold greedy_tsp. rewrite (len_matrix k m Hsquare).
  unfold Py.setitem. rewrite position_inside
    by (unfold Py.len; rewrite length_replicate; lia).
  simpl. unfold Py.len. rewrite length_replicate, Nat2Z.id.
  destruct (for_each_indexed
              (fun j st => visiting k start j st /\ nearest_neighbour m k st.1)
              (visit_next m n) (Py.range 0 (n - 1))
              ([start], <[Z.to_nat (Py.wrap n start):=true]> (replicate k false)))
    as (st & -> & _ & Hnear).
  - intros j x st Hx [Hinv Hnear]. apply lookup_range in Hx as [_ Hx].
    destruct (visit_next_step k m Hsquare Hfinite start j st x) as (st' & Hrun & Hinv');
      [lia | exact Hinv | lia|].
    exists st'. split; [exact Hrun|]. split; [exact Hinv'|].
    apply (visit_next_nearest start j st x st');
      [exact Hstart | exact Hinv | lia | exact Hnear | exact Hrun].
  - split; [apply visiting_start; lia|].
    intros t prev next _ Hnext. destruct t; discriminate.
  - simpl. eauto.
Qed.

End GreedyNearest.

(** X13. [greedy_tsp] is a nearest-neighbour construction with ties going
    to the smallest index: on an [n] by [n] matrix of finite distances and a
    start index in [[0, n)], every element of the returned path after the
    first is a place whose distance from the element before it is not above
    that of any place not yet on the path, and every such place with a
    smaller index is strictly farther. *)
Theorem greedy_tsp_nearest_neighbour (k : nat) (m : matrix) (start : Z) :
  square k m -> finite_entries m -> 0 <= start < Z.of_nat k ->
  exists path, greedy_tsp m start = Ok path /\ nearest_neighbour m k path.
Proof. intros Hm Hfin Hstart. apply greedy_tsp_nearest; assumption. Qed.

Lemma greedy_tsp_nearest_neighbour_witness :
  exists path, greedy_tsp square4 0 = Ok path /\ nearest_neighbour square4 4 path.
Proof.
  apply (greedy_tsp_nearest_neighbour 4 square4 0).
  - exact square4_square.
  - exact square4_finite.
  - lia.
Defined.

(** X14. [greedy_tsp] does not cope with a start place from which no other
    place is at a distance below [float('inf')] (an infinite or NaN row):
    with two or more places no candidate is taken, [next_place] stays [None]
    and [visited[next_place] = True] raises [TypeError]. *)
Theorem greedy_tsp_no_candidate (k : nat) (m : matrix) (start : Z) :
  square k m -> (2 <= k)%nat -> 0 <= start < Z.of_nat k ->
  (forall c d, 0 <= c < Z.of_nat k -> c <> start -> entry m start c = Ok d ->
     ~ float_lt d PrimFloat.infinity) ->
  greedy_tsp m start = Raise TypeError.
Proof.
  intros Hm Hk Hstart Hrow. unfold greedy_tsp. rewrite (len_matrix k m Hm).
  unfold Py.setitem. rewrite position_nonneg
    by (unfold Py.len; rewrite length_replicate; lia).
  simpl. unfold Py.range. rewrite seqZ_cons by lia. simpl.
  change (Py.getitem [start] (-1)) with (Ok start : result Z). simpl.
  set (visited := <[Z.to_nat start:=true]> (replicate (Z.to_nat (Z.of_nat k)) false)).
  assert (length visited = k) as Hlen.
  { unfold visited. rewrite length_insert, length_replicate. lia. }
  destruct (for_each_total (fun c : choice => c = (None, PrimFloat.infinity))
              (consider m visited start) (seqZ 0 (Z.of_nat k - 0))
              (None, PrimFloat.infinity)) as (c & Hc & ->).
  - intros c x Hx ->. apply elem_of_seqZ in Hx. unfold consider.
    destruct (getitem_nonneg visited x) as (seen & Hseen & ->); [unfold Py.len; lia|].
    simpl. destruct seen; [eauto|].
    assert (x <> start) as Hne.
    { intros ->. unfold visited in Hseen.
      rewrite list_lookup_insert_eq in Hseen by (rewrite length_replicate; lia).
      discriminate. }
    destruct (entry_total k m start x Hm) as (row & d & Hrowget & Hd); [lia | lia|].
    assert (entry m start x = Ok d) as Hentry.
    { unfold entry. rewrite Hrowget. simpl. exact Hd. }
    rewrite Hentry. simpl.
    destruct (PrimFloat.ltb d PrimFloat.infinity) eqn:Hlt; [|eauto].
    exfalso. apply (Hrow x d); [lia | exact Hne | exact Hentry | exact Hlt].
  - reflexivity.
  - unfold Py.range. rewrite Hc. reflexivity.
Qed.

Lemma greedy_tsp_no_candidate_witness :
  greedy_tsp [ [0; nan]; [nan; 0] ]%float 0 = Raise TypeError.
Proof.
  apply (greedy_tsp_no_candidate 2).
  - split; [reflexivity | repeat constructor].
  - lia.
  - lia.
  - intros c d Hc Hne. assert (c = 1) as -> by lia. vm_compute. intros [= <-]. discriminate.
Defined.

(** * From the places to the route *)

Lemma created_matrix_finite
    (haversine : float -> float -> float -> float -> result float) places :
  (forall a b p q, a <> b -> places !! a = Some p -> places !! b = Some q ->
     exists d, haversine (lat p) (lon p) (lat q) (lon q) = Ok d
               /\ float_lt d PrimFloat.infinity) ->
  exists m, create_distance_matrix haversine places = Ok m
            /\ square (length places) m /\ finite_entries m.
Proof.
  intros Hhav.
  destruct (create_distance_matrix_entries haversine places) as (m & Hrun & Hsq & Hent).
  { intros a b p q Hne Hp Hq. destruct (Hhav a b p q Hne Hp Hq) as (d & Hd & _). eauto. }
  exists m. split; [exact Hrun|]. split; [exact Hsq|].
  destruct Hsq as [Hlen Hrows].
  unfold finite_entries. apply Forall_lookup. intros a row Hrow.
  apply Forall_lookup. intros b v Hv.
  assert (length row = length places) as Hrowlen.
  { rewrite Forall_forall in Hrows. eapply Hrows, list_elem_of_lookup_2, Hrow. }
  destruct (lookup_lt_is_Some_2 places a) as [p Hp];
    [apply lookup_lt_Some in Hrow; lia|].
  destruct (lookup_lt_is_Some_2 places b) as [q Hq];
    [apply lookup_lt_Some in Hv; lia|].
  assert (entry m (Z.of_nat a) (Z.of_nat b) = Ok v) as Hentry.
  { unfold entry. rewrite (getitem_of_nat _ _ _ Hrow). simpl.
    apply getitem_of_nat, Hv. }
  rewrite (Hent a b p q Hp Hq) in Hentry.
  destruct (decide (a = b)) as [Hab|Hab].
  - injection Hentry as <-. reflexivity.
  - destruct (Hhav a b p q Hab Hp Hq) as (d & Hd & Hfin). congruence.
Qed.

(** X15. The computation of [main] after the places were read holds
    together: for at least one place, whenever [haversine] returns a finite
    distance for every two different places, the matrix is built, the start
    index found by name (or the default [0]) is accepted, [solve_tsp] returns
    a tour of all places beginning with it (closed by the start index when
    asked), and [create_geojson] finds a position for every element of that
    route, so that it writes the route and fails only if the file cannot be
    written.  None of the [IndexError] and [TypeError] of the solver can
    occur. *)
Theorem route_of_places
    (haversine : float -> float -> float -> float -> result float)
    (places : list Place) (start : option string) (return_to_start : bool)
    (output_file : string) :
  places <> [] ->
  (forall a b p q, a <> b -> places !! a = Some p -> places !! b = Some q ->
     exists d, haversine (lat p) (lon p) (lat q) (lon q) = Ok d
               /\ float_lt d PrimFloat.infinity) ->
  exists m tour cs,
    let start_index := (find_start_index places start).1 in
    let route := if return_to_start then tour ++ [start_index] else tour in
    create_distance_matrix haversine places = Ok m
    /\ tour ≡ₚ seqZ 0 (Py.len places)
    /\ head tour = Some start_index
    /\ (forall fuel, (fact (length places) <= fuel)%nat ->
          solve_tsp fuel m start_index return_to_start = Some (Ok route))
    /\ coordinates places route = Ok cs
    /\ length cs = length route
    /\ (forall dump_to_file,
          create_geojson dump_to_file places route output_file
          = (_ ← dump_to_file output_file (line_string_document cs); Ok output_file)).
Proof.
  intros Hne Hhav.
  destruct (created_matrix_finite haversine places Hhav) as (m & Hrun & Hsq & Hfin).
  destruct (find_start_index places start) as [i warned] eqn:Hstart.
  assert (0 <= i < Py.len places) as Hi.
  { unfold find_start_index in Hstart.
    assert (0 <= 0 < Py.len places) as Hzero
      by (destruct places; [congruence | unfold Py.len; simpl; lia]).
    destruct start as [s|]; [|injection Hstart as <- _; exact Hzero].
    destruct (String.eqb s EmptyString); [injection Hstart as <- _; exact Hzero|].
    destruct (find_place places s 0) as [i'|] eqn:E;
      [|injection Hstart as <- _; exact Hzero].
    injection Hstart as <- _.
    destruct (find_place_Some _ _ _ _ E) as (pos & p & -> & Hp & _).
    apply lookup_lt_Some in Hp. unfold Py.len. lia. }
  destruct (solve_tsp_tour (length places) m i Hsq Hfin Hi) as (tour & Hperm & Hhead & Hsolve).
  assert (Forall (fun a => - Py.len places <= a < Py.len places)
            (if return_to_start then tour ++ [i] else tour)) as Hroute.
  { assert (Forall (fun a => - Py.len places <= a < Py.len places) tour) as Htour.
    { rewrite Hperm. apply Forall_forall. intros a Ha. apply elem_of_seqZ in Ha.
      unfold Py.len. lia. }
    destruct return_to_start; [|exact Htour].
    apply Forall_app. split; [exact Htour|]. repeat constructor; lia. }
  destruct (coordinates_Ok places _ Hroute) as (cs & Hcs & Hall).
  exists m, tour, cs. simpl.
  split; [exact Hrun|]. split; [exact Hperm|]. split; [exact Hhead|].
  split; [intros fuel Hfuel; apply Hsolve, Hfuel|].
  split; [exact Hcs|]. split; [symmetry; eapply Forall2_length, Hall|].
  intros dump_to_file. unfold create_geojson. rewrite Hcs. reflexivity.
Qed.

Lemma route_of_places_witness :
  exists m tour cs,
    create_distance_matrix (fun la _ la' _ => Ok (PrimFloat.abs (la - la')))
      three_places = Ok m
    /\ tour ≡ₚ seqZ 0 3
    /\ head tour = Some 1
    /\ solve_tsp 6 m 1 true = Some (Ok (tour ++ [1]))
    /\ coordinates three_places (tour ++ [1]) = Ok cs
    /\ create_geojson (fun _ _ => Ok ()) three_places (tour ++ [1]) "route.geojson"
       = Ok "route.geojson"%string.
Proof.
  destruct (route_of_places (fun la _ la' _ => Ok (PrimFloat.abs (la - la')))
              three_places (Some "north"%string) true "route.geojson")
    as (m & tour & cs & Hm & Hperm & Hhead & Hsolve & Hcs & _ & Hgeo).
  - discriminate.
  - intros [|[|[|a]]] [|[|[|b]]] p q Hne Hp Hq; try discriminate; try congruence;
      injection Hp as <-; injection Hq as <-; eexists; split;
      try reflexivity; vm_compute; reflexivity.
  - exists m, tour, cs. split; [exact Hm|]. split; [exact Hperm|]. split; [exact Hhead|].
    split; [apply Hsolve; vm_compute; lia|]. split; [exact Hcs|].
    exact (Hgeo (fun _ _ => Ok ())).
Defined.

(** * [haversine] near the antipodes *)

(** C1 does not hold of the code: [haversine] has no clamp before
    [math.asin].  For the points (57.34590496794654, 0) and
    (-57.345904967946566, 180), both within the valid ranges, with the
    values that the C library returns for the two sines, the two cosines and
    the square, the sum [a] rounds to [1 + 2^-51], its square root to
    [1 + 2^-52], and [math.asin] raises [ValueError]. *)
Theorem haversine_near_antipodes_raises
    (sin cos asin : float -> float) (pow : float -> float -> float) :
  sin (-0x1.0039559e4a94ap+0)%float = (-0x1.af1332d5a8393p-1)%float ->
  sin 0x1.921fb54442d18p+0%float = 1%float ->
  cos 0x1.0039559e4a948p+0%float = 0x1.1441fc7790b88p-1%float ->
  cos (-0x1.0039559e4a94bp+0)%float = 0x1.1441fc7790b83p-1%float ->
  pow 0x1.af1332d5a8393p-1%float 2%float = 0x1.6af0d34e011fep-1%float ->
  haversine sin cos asin pow
    0x1.cac469d2e6d5ap+5%float 0%float (-0x1.cac469d2e6d5ep+5)%float 180%float
  = Raise ValueError.
Proof.
  intros Hs1 Hs2 Hc1 Hc2 Hp. unfold haversine, math_sin, math_cos.
  vm_compute math_radians.
  repeat match goal with
         | |- context [PrimFloat.is_infinity ?x] =>
             let b := eval vm_compute in (PrimFloat.is_infinity x) in
             change (PrimFloat.is_infinity x) with b
         | |- context [(?x / 2)%float] =>
             let v := eval vm_compute in (x / 2)%float in
             change (x / 2)%float with v
         | |- context [(?x - ?y)%float] =>
             let v := eval vm_compute in (x - y)%float in
             change (x - y)%float with v
         end.
  cbv beta iota. rewrite Hs1, Hs2, Hc1, Hc2. cbn [mbind result_bind].
  unfold pow_2.
  vm_compute (PrimFloat.abs _). vm_compute (PrimFloat.is_nan _).
  vm_compute (PrimFloat.is_infinity _). rewrite Hp. vm_compute. reflexivity.
Qed.

Lemma haversine_near_antipodes_raises_witness :
  haversine
    (fun x => if (x <? 0)%float then (-0x1.af1332d5a8393p-1)%float else 1%float)
    (fun x => if (x <? 0)%float then 0x1.1441fc7790b83p-1%float
              else 0x1.1441fc7790b88p-1%float)
    (fun x => x) (fun x _ => (x * x)%float)
    0x1.cac469d2e6d5ap+5%float 0%float (-0x1.cac469d2e6d5ep+5)%float 180%float
  = Raise ValueError.
Proof. apply haversine_near_antipodes_raises; vm_compute; reflexivity. Defined.
